(** * Conway's Game of Life canvas background (src/components/GameOfLife)

    A shallow embedding of the [GameOfLife] component: the grid of cells,
    [countNeighbors], the body of [draw] (opacity fade, canvas output, next
    generation) and the timer / animation-frame loop started by the effect
    and stopped by its cleanup function.

    JavaScript numbers that hold opacities are IEEE-754 doubles and are
    modelled by Rocq's primitive binary64 floats; numbers that hold indices
    and counts are integers (or NaN) and are modelled by [Z]. *)

From Stdlib Require Import ZArith Floats Lia List Sorted.
From stdpp Require Import base option list sorting.

#[local] Set Warnings "-inexact-float".
#[local] Open Scope Z_scope.

(** ** Exceptions *)

Inductive JsError : Set := TypeError | RangeError.

Inductive result (A : Type) : Type :=
| Ok (a : A)
| Throw (e : JsError).
Arguments Ok {A} a.
Arguments Throw {A} e.

#[global] Instance result_ret : MRet result := fun A a => Ok a.
#[global] Instance result_bind : MBind result := fun A B f m =>
  match m with
  | Ok a => f a
  | Throw e => Throw e
  end.

Definition succeeds {A} (m : result A) : Prop := exists a, m = Ok a.

(** ** JavaScript primitives used by the component *)

Module Js.

(** An index expression evaluates to an integer or to NaN. *)
Inductive num : Set := NaN | Int (z : Z).

(** [a % b] on integers: the sign follows the dividend, and [% 0] is NaN. *)
Definition rem (a b : Z) : num :=
  if b =? 0 then NaN else Int (Z.rem a b).

(** [l[k]]: [undefined] ([None]) unless [k] is an index of [l]. *)
Definition get {A} (l : list A) (k : num) : option A :=
  match k with
  | NaN => None
  | Int z => if 0 <=? z then l !! Z.to_nat z else None
  end.

(** [Array(n)] for an integer [n]: a RangeError unless [0 <= n < 2^32]. *)
Definition Array (n : Z) : result nat :=
  if (0 <=? n) && (n <? 2 ^ 32) then Ok (Z.to_nat n) else Throw RangeError.

(** [Math.min] and [Math.max] on doubles: NaN is contagious and
    [-0] is below [+0]. *)
Definition min (a b : float) : float :=
  if (is_nan a || is_nan b)%bool then nan
  else if (a <? b)%float then a
  else if (b <? a)%float then b
  else if get_sign a then a else b.

Definition max (a b : float) : float :=
  if (is_nan a || is_nan b)%bool then nan
  else if (a <? b)%float then b
  else if (b <? a)%float then a
  else if get_sign a then b else a.

(** [for (let i = lo; i < hi; i++) s = body(i, s)], stopping at the
    first exception. *)
Fixpoint loop {S} (n : nat) (i : Z) (body : Z -> S -> result S) (s : S)
  : result S :=
  match n with
  | O => Ok s
  | Datatypes.S n' => s' ← body i s; loop n' (i + 1) body s'
  end.

Definition for_ {S} (lo hi : Z) (body : Z -> S -> result S) (s : S)
  : result S :=
  loop (Z.to_nat (hi - lo)) lo body s.

(** [l.map((x, i) => f(i, x))], stopping at the first exception. *)
Fixpoint map_from {A B} (f : Z -> A -> result B) (i : Z) (l : list A)
  : result (list B) :=
  match l with
  | [] => Ok []
  | x :: l' => y ← f i x; ys ← map_from f (i + 1) l'; Ok (y :: ys)
  end.

Definition map {A B} (f : Z -> A -> result B) (l : list A)
  : result (list B) :=
  map_from f 0 l.

(** [Array(n).fill(null).map(() => e)] where evaluating [e] draws from
    [Math.random]: the state is the number of draws made so far. *)
Fixpoint fill_map {A} (n : nat) (e : nat -> result (A * nat)) (k : nat)
  : result (list A * nat) :=
  match n with
  | O => Ok ([], k)
  | Datatypes.S n' =>
      '(x, k1) ← e k; '(xs, k2) ← fill_map n' e k1; Ok (x :: xs, k2)
  end.

End Js.

(** ** The grid *)

Record Cell : Set := mkCell { alive : bool; opacity : float }.

Abbreviation Grid := (list (list Cell)).

Definition cellSize : Z := 6.
Definition transitionSpeed : float := 0.2%float.

(** [grid[row][col]] followed by a property read: a TypeError when the row
    or the cell is [undefined]. *)
Definition cellAt (grid : Grid) (row col : Js.num) : result Cell :=
  match Js.get grid row with
  | None => Throw TypeError
  | Some r =>
      match Js.get r col with
      | None => Throw TypeError
      | Some cell => Ok cell
      end
  end.

(** [cell.opacity = o] for [cell = grid[i][j]]: the object is updated in
    place, every other cell is a distinct object. *)
Definition setOpacity (grid : Grid) (i j : Z) (o : float) : Grid :=
  alter (alter (fun cell => mkCell (alive cell) o) (Z.to_nat j)) (Z.to_nat i) grid.

(** A grid is well formed for the closure's [rows] and [cols] when it has
    [rows] rows of [cols] cells each. *)
Definition wf (rows cols : Z) (grid : Grid) : Prop :=
  Z.of_nat (length grid) = rows /\
  Forall (fun r => Z.of_nat (length r) = cols) grid.

Definition b2z (b : bool) : Z := if b then 1 else 0.

(** ** Initialisation *)

Section Random.

(** The successive results of [Math.random()]. *)
Variable random : nat -> float.

Definition initCell (k : nat) : result (Cell * nat) :=
  let a := (0.85 <? random k)%float in
  let o := if (0.85 <? random (S k))%float then 0.5%float else 0%float in
  Ok (mkCell a o, S (S k)).

Definition initRow (cols : Z) (k : nat) : result (list Cell * nat) :=
  match Js.Array cols with
  | Ok n => Js.fill_map n initCell k
  | Throw e => Throw e
  end.

Definition initGrid (rows cols : Z) (k : nat) : result (Grid * nat) :=
  match Js.Array rows with
  | Ok n => Js.fill_map n (initRow cols) k
  | Throw e => Throw e
  end.

End Random.

(** ** One frame: [countNeighbors] and [draw] *)

Inductive CanvasOp : Set :=
| Clear                                  (* fillRect over the whole canvas *)
| Dot (x y : Z) (radius : Z) (o : float). (* arc + fill with rgba(0,0,0,o) *)

Section Closure.

(** The constants captured by [countNeighbors] and [draw]. *)
Variables rows cols : Z.

Definition countNeighbors (grid : Grid) (x y : Z) : result Z :=
  sum ← Js.for_ (-1) 2 (fun i sum =>
           Js.for_ (-1) 2 (fun j sum =>
             let row := Js.rem (x + i + rows) rows in
             let col := Js.rem (y + j + cols) cols in
             cell ← cellAt grid row col;
             Ok (sum + b2z (alive cell))) sum) 0;
  self ← cellAt grid (Js.Int x) (Js.Int y);
  Ok (sum - b2z (alive self)).

(** The body of the inner [for] of [draw] at cell [(i, j)]: [cell] is the
    object stored in the grid, so the test [cell.opacity > 0] reads the
    opacity that the branches above may just have assigned. *)
Definition drawCell (i j : Z) (st : Grid * list CanvasOp)
  : result (Grid * list CanvasOp) :=
  let '(grid, ops) := st in
  cell ← cellAt grid (Js.Int i) (Js.Int j);
  let grid' :=
    if (alive cell && (opacity cell <? 1)%float)%bool then
      setOpacity grid i j
        (Js.min (opacity cell + transitionSpeed)%float 0.5%float)
    else if (negb (alive cell) && (0 <? opacity cell)%float)%bool then
      setOpacity grid i j
        (Js.max (opacity cell - transitionSpeed)%float 0%float)
    else grid in
  cell ← cellAt grid' (Js.Int i) (Js.Int j);
  if (0 <? opacity cell)%float then
    Ok (grid', ops ++ [Dot (j * cellSize + cellSize / 2)
                           (i * cellSize + cellSize / 2) 1 (opacity cell)])
  else Ok (grid', ops).

(** The first half of [draw]: clear, then update and paint every cell. *)
Definition paint (grid : Grid) : result (Grid * list CanvasOp) :=
  Js.for_ 0 rows (fun i st => Js.for_ 0 cols (fun j st => drawCell i j st) st)
    (grid, [Clear]).

Definition willBeAlive (cell : Cell) (neighbors : Z) : bool :=
  if alive cell then (2 <=? neighbors) && (neighbors <=? 3)
  else neighbors =? 3.

(** The second half of [draw]: [const next = grid.map(...)]. *)
Definition next (grid : Grid) : result Grid :=
  Js.map (fun i row =>
    Js.map (fun j cell =>
      neighbors ← countNeighbors grid i j;
      Ok (mkCell (willBeAlive cell neighbors) (opacity cell))) row) grid.

(** [draw] up to the point where the next frame is scheduled: the canvas
    operations issued and the grid assigned to [grid]. *)
Definition draw (grid : Grid) : result (Grid * list CanvasOp) :=
  '(grid1, ops) ← paint grid;
  grid2 ← next grid1;
  Ok (grid2, ops).

End Closure.

(** ** The effect: mounting, the frame loop, and the cleanup *)

Record Runtime : Type := mkRuntime {
  rows : Z;                          (* closure constant *)
  cols : Z;                          (* closure constant *)
  grid : Grid;                       (* let grid *)
  animationFrameId : option nat;     (* let animationFrameId, undefined at first *)
  timeouts : nat;                    (* pending setTimeout callbacks *)
  frames : list nat;                 (* pending requestAnimationFrame handles *)
  nextHandle : nat;                  (* next handle the browser hands out *)
  painted : list (list CanvasOp)     (* canvas operations, one list per draw *)
}.

(** A call of [draw]: paint, assign the next generation to [grid], and
    schedule the timeout. An exception of [draw] propagates to the
    caller. *)
Definition callDraw (rt : Runtime) : result Runtime :=
  '(grid', ops) ← draw (rows rt) (cols rt) (grid rt);
  Ok (mkRuntime (rows rt) (cols rt) grid' (animationFrameId rt)
                (S (timeouts rt)) (frames rt) (nextHandle rt)
                (painted rt ++ [ops])).

(** The effect body past its two guards, for a canvas element with the
    given [width] and [height] attributes: compute the dimensions,
    initialise the grid, call [draw]. *)
Definition mount (random : nat -> float) (width height : Z) : result Runtime :=
  let cols := width / cellSize in
  let rows := height / cellSize in
  '(grid, _) ← initGrid random rows cols 0;
  callDraw (mkRuntime rows cols grid None 0 [] 1 []).




Inductive Event : Set :=
| TimeoutFires              (* the 125 ms timer expires *)
| FrameFires (handle : nat) (* the browser runs an animation-frame callback *)
| Cleanup.                  (* the function returned by the effect *)

(** What an event does to the runtime; [None] when the event cannot
    happen in that state, or when the callback it runs throws (the model
    does not follow the runtime past an uncaught exception). *)
Definition fire (e : Event) (rt : Runtime) : option Runtime :=
  match e with
  | TimeoutFires =>
      match timeouts rt with
      | O => None
      | S pending =>
          (* animationFrameId = requestAnimationFrame(draw) *)
          Some (mkRuntime (rows rt) (cols rt) (grid rt)
                          (Some (nextHandle rt)) pending
                          (frames rt ++ [nextHandle rt])
                          (S (nextHandle rt)) (painted rt))
      end
  | FrameFires handle =>
      if bool_decide (handle ∈ frames rt) then
        match callDraw
                (mkRuntime (rows rt) (cols rt) (grid rt) (animationFrameId rt)
                           (timeouts rt)
                           (List.filter (fun h => negb (Nat.eqb h handle))
                                        (frames rt))
                           (nextHandle rt) (painted rt)) with
        | Ok rt' => Some rt'
        | Throw _ => None
        end
      else None
  | Cleanup =>
      (* cancelAnimationFrame(animationFrameId) *)
      Some (mkRuntime (rows rt) (cols rt) (grid rt) (animationFrameId rt)
                      (timeouts rt)
                      (match animationFrameId rt with
                       | Some handle =>
                           List.filter (fun h => negb (Nat.eqb h handle))
                                       (frames rt)
                       | None => frames rt
                       end)
                      (nextHandle rt) (painted rt))
  end.

Fixpoint run (events : list Event) (rt : Runtime) : option Runtime :=
  match events with
  | [] => Some rt
  | e :: events' =>
      match fire e rt with
      | Some rt' => run events' rt'
      | None => None
      end
  end.

(** ** Specification-level definitions *)

(** The alive flag at an integer coordinate, [false] off the grid. *)
Definition aliveAt (grid : Grid) (i j : Z) : bool :=
  match cellAt grid (Js.Int i) (Js.Int j) with
  | Ok cell => alive cell
  | Throw _ => false
  end.

(** Toroidal wrapping of [index + delta] into a dimension. *)
Definition wrap (index delta dimension : Z) : Z :=
  Z.rem (index + delta + dimension) dimension.

(** The eight offsets [{-1,0,1} x {-1,0,1}] without [(0,0)]. *)
Definition offsets : list (Z * Z) :=
  [(-1, -1); (-1, 0); (-1, 1); (0, -1); (0, 1); (1, -1); (1, 0); (1, 1)].

Definition sumZ (l : list Z) : Z := fold_right Z.add 0 l.

(** The number of live cells among the eight wrapped neighbour positions,
    a position reached by several offsets being counted once per offset. *)
Definition liveNeighbors (rows cols : Z) (grid : Grid) (x y : Z) : Z :=
  sumZ (List.map (fun d => b2z (aliveAt grid (wrap x (fst d) rows)
                                              (wrap y (snd d) cols)))
                 offsets).

(** Conway's rule as the specification words it. *)
Definition conway (a : bool) (n : Z) : Prop :=
  (a = true /\ (n = 2 \/ n = 3)) \/ (a = false /\ n = 3).

(** The opacity of a cell after the opacity update of [draw]: raised by
    [transitionSpeed] up to 0.5 while the cell is alive, lowered by it down
    to 0 while the cell is dead. *)
Definition fade (cell : Cell) : float :=
  if (alive cell && (opacity cell <? 1)%float)%bool then
    Js.min (opacity cell + transitionSpeed)%float 0.5%float
  else if (negb (alive cell) && (0 <? opacity cell)%float)%bool then
    Js.max (opacity cell - transitionSpeed)%float 0%float
  else opacity cell.

(** The cell after the opacity update of [draw]. *)
Definition faded (cell : Cell) : Cell := mkCell (alive cell) (fade cell).

(** The visible cells of a grid in row-major order, each with its row,
    its column and its opacity. *)
Fixpoint rowSnapshot (i j : Z) (row : list Cell) : list (Z * Z * float) :=
  match row with
  | [] => []
  | cell :: row' =>
      (if (0 <? opacity cell)%float then [(i, j, opacity cell)] else [])
        ++ rowSnapshot i (j + 1) row'
  end.

Fixpoint gridSnapshot (i : Z) (grid : Grid) : list (Z * Z * float) :=
  match grid with
  | [] => []
  | row :: grid' => rowSnapshot i 0 row ++ gridSnapshot (i + 1) grid'
  end.

Definition renderSnapshot (grid : Grid) : list (Z * Z * float) :=
  gridSnapshot 0 grid.

(** The pixel position and primitive the renderer uses for a record. *)
Definition toDot (r : Z * Z * float) : CanvasOp :=
  let '(i, j, o) := r in
  Dot (j * cellSize + cellSize / 2) (i * cellSize + cellSize / 2) 1 o.

(** Row-major order on snapshot records. *)
Definition rowMajor (a b : Z * Z * float) : Prop :=
  let '(i1, j1, _) := a in
  let '(i2, j2, _) := b in
  i1 < i2 \/ (i1 = i2 /\ j1 < j2).

(** ** Definitions used by the statements and proofs *)

Definition cellOr (grid : Grid) (i j : Z) : Cell :=
  match cellAt grid (Js.Int i) (Js.Int j) with
  | Ok cell => cell
  | Throw _ => mkCell false 0%float
  end.

(** [l.map((x, i) => h(i, x))] for a callback that cannot throw. *)
Fixpoint imapZ {A B} (h : Z -> A -> B) (i : Z) (l : list A) : list B :=
  match l with
  | [] => []
  | x :: l' => h i x :: imapZ h (i + 1) l'
  end.

Definition nextCell (rows cols : Z) (grid : Grid) (i j : Z) (cell : Cell)
  : Cell :=
  mkCell (willBeAlive cell (liveNeighbors rows cols grid i j)) (opacity cell).

Definition nextGrid (rows cols : Z) (grid : Grid) : Grid :=
  imapZ (fun i row => imapZ (nextCell rows cols grid i) 0 row) 0 grid.

(** Live neighbours of [x] along one dimension, [x] itself included. *)
Definition count3 (P : Z -> bool) (n x : Z) : Z :=
  b2z (P (wrap x (-1) n)) + b2z (P (wrap x 0 n)) + b2z (P (wrap x 1 n)).

Definition point (center k : Z) : bool := k =? center.
(** Within one step of [center] on a ring of [n] indices: [center] or
    one of its two wrapped neighbours. *)
Definition near (n center k : Z) : bool :=
  (k =? wrap center (-1) n) || (k =? center) || (k =? wrap center 1 n).

(** The horizontal line of three cells centred at [(r, c)], wherever it
    lies on the torus (its ends wrap around the vertical seam), and the
    vertical line of three through the same centre. *)
Definition hline (rows cols r c i j : Z) : bool := point r i && near cols c j.
Definition vline (rows cols r c i j : Z) : bool := near rows r i && point c j.

(** Order of the painted dots on the canvas: top to bottom, then left to
    right. *)
Definition dotOrder (a b : CanvasOp) : Prop :=
  match a, b with
  | Dot x1 y1 _ _, Dot x2 y2 _ _ => y1 < y2 \/ (y1 = y2 /\ x1 < x2)
  | _, _ => False
  end.

(** The opacity after [n] frames of a cell kept at alive flag [a],
    starting from opacity [o]. *)
Fixpoint held (a : bool) (o : float) (n : nat) : float :=
  match n with
  | O => o
  | S n' => fade (mkCell a (held a o n'))
  end.

(** The cell after [n] opacity updates with its alive flag untouched. *)
Definition heldCell (n : nat) (cell : Cell) : Cell :=
  mkCell (alive cell) (held (alive cell) (opacity cell) n).

(** [n] runs of the paint loop of [draw] over the same grid: the
    per-frame opacity update applied [n] times while every alive flag is
    held as it is. *)
Fixpoint paints (rows cols : Z) (n : nat) (grid : Grid) : result Grid :=
  match n with
  | O => Ok grid
  | S n' =>
      grid1 ← paints rows cols n' grid;
      '(grid2, _) ← paint rows cols grid1;
      Ok grid2
  end.

(** [n] whole frames: [draw] called [n] times, each on the grid the
    previous call assigned. *)
Fixpoint ticks (rows cols : Z) (n : nat) (grid : Grid) : result Grid :=
  match n with
  | O => Ok grid
  | S n' =>
      grid1 ← ticks rows cols n' grid;
      '(grid2, _) ← draw rows cols grid1;
      Ok grid2
  end.

(** One row with a live cell at opacity 0 and a dead cell at opacity
    0.5. *)
Definition fading2 : Grid := [[mkCell true 0%float; mkCell false 0.5%float]].

(** ** Example inputs *)

Definition liveCell : Cell := mkCell true 0.5%float.
Definition deadCell : Cell := mkCell false 0%float.

Definition blinker5 : Grid :=
  [ [deadCell; deadCell; deadCell; deadCell; deadCell];
    [deadCell; deadCell; deadCell; deadCell; deadCell];
    [deadCell; liveCell; liveCell; liveCell; deadCell];
    [deadCell; deadCell; deadCell; deadCell; deadCell];
    [deadCell; deadCell; deadCell; deadCell; deadCell] ].

(** A run of [Math.random] whose draws alternate between 0.9 and 0.1. *)
Definition alternating (k : nat) : float :=
  if Nat.even k then 0.9%float else 0.1%float.

(** Draws that initialise a 5 x 5 grid to the blinker: cells 11, 12 and
    13 in row-major order are alive and visible, the others dead. *)
Definition blinkerDraws (k : nat) : float :=
  if ((11 <=? Nat.div k 2) && (Nat.div k 2 <=? 13))%nat
  then 0.9%float else 0.1%float.

(** ** The [useScroll] hook (lib/useScroll)

    The hook keeps one piece of state, [scrolled]; its callback
    [onScroll] is memoised on [threshold], and its effect, keyed on
    [onScroll], registers the callback as a scroll listener of the window,
    calls it once, and unregisters it on cleanup. The state below is the
    hook's state together with the part of the window it touches. *)

Record ScrollState : Set := mkScroll {
  scrollY : float;                  (* window.scrollY *)
  listeners : list (nat * float);   (* scroll listeners: callback identity and
                                       the threshold the callback captured *)
  scrolled : bool;                  (* useState(false) *)
  onScroll : nat;                   (* identity of the memoised callback *)
  threshold : float;                (* the threshold it captured *)
  nextCallback : nat;               (* identity of the next function object *)
  mounted : bool
}.

(** A call of a callback that captured [t]:
    [setScrolled(window.scrollY > t)]. *)
Definition callOnScroll (t : float) (st : ScrollState) : ScrollState :=
  mkScroll (scrollY st) (listeners st) (t <? scrollY st)%float
           (onScroll st) (threshold st) (nextCallback st) (mounted st).

(** [window.removeEventListener("scroll", callback)]. *)
Definition removeListener (callback : nat) (l : list (nat * float))
  : list (nat * float) :=
  List.filter (fun entry => negb (Nat.eqb (fst entry) callback)) l.

(** First render and effect, for a window scrolled to [y]. *)
Definition useScrollMount (t y : float) : ScrollState :=
  callOnScroll t (mkScroll y [(O, t)] false O t 1 true).

Inductive ScrollEvent : Set :=
| Scrolls (y : float)    (* the window scrolls to y and dispatches "scroll" *)
| Rerender (t : float)   (* the host renders again, with threshold t *)
| Unmount.               (* the host unmounts: the effect's cleanup runs *)

(** What an event does; [None] for a render or an unmount of a hook that
    is not mounted. The dependency arrays compare with [Object.is], which
    on numbers is equality of the doubles (NaN equal to itself, [+0]
    different from [-0]). *)
Definition scrollFire (e : ScrollEvent) (st : ScrollState)
  : option ScrollState :=
  match e with
  | Scrolls y =>
      Some (fold_left (fun st entry => callOnScroll (snd entry) st)
                      (listeners st)
                      (mkScroll y (listeners st) (scrolled st) (onScroll st)
                                (threshold st) (nextCallback st) (mounted st)))
  | Rerender t =>
      if mounted st then
        if PrimFloat.Leibniz.eqb (threshold st) t then Some st
        else
          (* a new onScroll; cleanup of the old effect, then the effect *)
          Some (callOnScroll t
                  (mkScroll (scrollY st)
                            (removeListener (onScroll st) (listeners st)
                               ++ [(nextCallback st, t)])
                            (scrolled st) (nextCallback st) t
                            (S (nextCallback st)) true))
      else None
  | Unmount =>
      if mounted st then
        Some (mkScroll (scrollY st)
                       (removeListener (onScroll st) (listeners st))
                       (scrolled st) (onScroll st) (threshold st)
                       (nextCallback st) false)
      else None
  end.

Fixpoint scrollRun (events : list ScrollEvent) (st : ScrollState)
  : option ScrollState :=
  match events with
  | [] => Some st
  | e :: events' =>
      match scrollFire e st with
      | Some st' => scrollRun events' st'
      | None => None
      end
  end.

(** The last scroll position and the last rendered threshold of a
    history. *)
Definition lastScroll (y : float) (events : list ScrollEvent) : float :=
  fold_left (fun y e => match e with Scrolls y' => y' | _ => y end) events y.

Definition lastThreshold (t : float) (events : list ScrollEvent) : float :=
  fold_left (fun t e => match e with Rerender t' => t' | _ => t end) events t.

(** ** Further definitions: neighbourhoods, patterns, generations *)

(** The eight positions whose cells [countNeighbors] adds up at [(x, y)]. *)
Definition neighborPositions (rows cols x y : Z) : list (Z * Z) :=
  List.map (fun d => (wrap x (fst d) rows, wrap y (snd d) cols)) offsets.

(** Two adjacent indices [first], [first + 1]. *)
Definition pair (first k : Z) : bool := (first <=? k) && (k <=? first + 1).

(** The 2 x 2 block whose top-left cell is [(r, c)]. *)
Definition block (r c i j : Z) : bool := pair r i && pair c j.

(** [n] successive generations: [grid = next] repeated by [n] frames,
    without the opacity update. *)
Fixpoint generations (rows cols : Z) (n : nat) (grid : Grid) : result Grid :=
  match n with
  | O => Ok grid
  | S n' => grid' ← next rows cols grid; generations rows cols n' grid'
  end.

(** Two 3 x 3 grids with a single live cell, at [(0, 0)] and at
    [(2, 2)]. *)
Definition lone3a : Grid :=
  [ [liveCell; deadCell; deadCell];
    [deadCell; deadCell; deadCell];
    [deadCell; deadCell; deadCell] ].

Definition lone3b : Grid :=
  [ [deadCell; deadCell; deadCell];
    [deadCell; deadCell; deadCell];
    [deadCell; deadCell; liveCell] ].

(** A 4 x 4 grid whose top row holds a line of three centred at
    [(0, 0)]: columns 3, 0 and 1, across the seam. *)
Definition seamLine4 : Grid :=
  [ [liveCell; liveCell; deadCell; liveCell];
    [deadCell; deadCell; deadCell; deadCell];
    [deadCell; deadCell; deadCell; deadCell];
    [deadCell; deadCell; deadCell; deadCell] ].

(** A 4 x 4 grid holding the block at [(1, 1)], an all-dead 3 x 3 grid
    and an all-live 2 x 2 grid. *)
Definition block4 : Grid :=
  [ [deadCell; deadCell; deadCell; deadCell];
    [deadCell; liveCell; liveCell; deadCell];
    [deadCell; liveCell; liveCell; deadCell];
    [deadCell; deadCell; deadCell; deadCell] ].

Definition dead3 : Grid :=
  [ [deadCell; deadCell; deadCell];
    [deadCell; deadCell; deadCell];
    [deadCell; deadCell; deadCell] ].

Definition live2 : Grid := [ [liveCell; liveCell]; [liveCell; liveCell] ].

(** The cell the initialiser builds from the draws number [k] and
    [k + 1] of [Math.random]. *)
Definition cellFromDraws (random : nat -> float) (k : nat) : Cell :=
  mkCell (0.85 <? random k)%float
         (if (0.85 <? random (S k))%float then 0.5%float else 0%float).

(** ** Further definitions: the states the effect can reach *)

(** The opacities a cell can ever have: 0, 0.5 and the values between
    them that steps of [transitionSpeed] from either end produce in
    binary64 arithmetic. *)
Definition levels : list float :=
  Eval vm_compute in
    [0; 0.5 - transitionSpeed - transitionSpeed; transitionSpeed;
     0.5 - transitionSpeed; transitionSpeed + transitionSpeed; 0.5]%float.

(** What holds of the runtime between any two events. *)
Definition invariant (rt : Runtime) : Prop :=
  wf (rows rt) (cols rt) (grid rt) /\
  (forall i j cell,
     cellAt (grid rt) (Js.Int i) (Js.Int j) = Ok cell ->
     In (opacity cell) levels) /\
  (timeouts rt + length (frames rt) <= 1)%nat /\
  (forall h, In h (frames rt) -> animationFrameId rt = Some h).

(** [n] rounds of the loop: the timeout expires, then the frame it
    requested runs; [handle] is the handle of the first frame. *)
Fixpoint rounds (handle n : nat) : list Event :=
  match n with
  | O => []
  | S n' => TimeoutFires :: FrameFires handle :: rounds (S handle) n'
  end.

(** The runtime right after mounting a 6 x 6 canvas (one cell) with the
    alternating draws: the cell was created alive at opacity 0, its first
    frame painted it at 0.2, and alone on the torus it has died. *)
Definition mounted1 : Runtime :=
  mkRuntime 1 1 [[mkCell false 0.2%float]] None 1 [] 1
            [[Clear; Dot 3 3 1 0.2%float]].

(** ** Basic facts: array reads on well-formed grids *)

Lemma get_Int_Some {A} (l : list A) (k : Z) (x : A) :
  Js.get l (Js.Int k) = Some x <-> 0 <= k /\ l !! Z.to_nat k = Some x.
Proof.
  unfold Js.get. destruct (Z.leb_spec 0 k); split.
  - intros H0; split; [lia | exact H0].
  - intros [_ H0]; exact H0.
  - discriminate.
  - intros [H0 _]; lia.
Qed.

Lemma get_Int_app {A} (pre post : list A) (x : A) :
  Js.get (pre ++ x :: post) (Js.Int (Z.of_nat (length pre))) = Some x.
Proof.
  apply get_Int_Some. split; [lia |].
  rewrite Nat2Z.id. apply list_lookup_middle. reflexivity.
Qed.

Lemma cellAt_Ok (grid : Grid) (i j : Z) (cell : Cell) :
  cellAt grid (Js.Int i) (Js.Int j) = Ok cell <->
  exists row, (0 <= i /\ grid !! Z.to_nat i = Some row) /\
              (0 <= j /\ row !! Z.to_nat j = Some cell).
Proof.
  unfold cellAt. split.
  - destruct (Js.get grid (Js.Int i)) as [row|] eqn:Hr; [|discriminate].
    destruct (Js.get row (Js.Int j)) as [c|] eqn:Hc; [|discriminate].
    intros [= <-]. exists row. split; apply get_Int_Some; assumption.
  - intros (row & Hr & Hc).
    apply get_Int_Some in Hr, Hc. rewrite Hr, Hc. reflexivity.
Qed.

Lemma wf_lookup (rows cols : Z) (grid : Grid) (k : nat) (row : list Cell) :
  wf rows cols grid -> grid !! k = Some row -> Z.of_nat (length row) = cols.
Proof.
  intros [_ Hall] Hk. rewrite Forall_forall in Hall.
  apply Hall. eapply list_elem_of_lookup_2; eauto.
Qed.

Lemma cellAt_in_range (rows cols : Z) (grid : Grid) (i j : Z) (cell : Cell) :
  wf rows cols grid -> cellAt grid (Js.Int i) (Js.Int j) = Ok cell ->
  0 <= i < rows /\ 0 <= j < cols.
Proof.
  intros Hwf H. apply cellAt_Ok in H as (row & [Hi Hr] & [Hj Hc]).
  pose proof (wf_lookup _ _ _ _ _ Hwf Hr) as Hlen.
  apply lookup_lt_Some in Hr, Hc. destruct Hwf as [Hrows _]. lia.
Qed.

Lemma cellAt_wf (rows cols : Z) (grid : Grid) (i j : Z) :
  wf rows cols grid -> 0 <= i < rows -> 0 <= j < cols ->
  exists cell, cellAt grid (Js.Int i) (Js.Int j) = Ok cell.
Proof.
  intros Hwf Hi Hj.
  destruct (lookup_lt_is_Some_2 grid (Z.to_nat i)) as [row Hr].
  { destruct Hwf as [Hrows _]. lia. }
  pose proof (wf_lookup _ _ _ _ _ Hwf Hr) as Hlen.
  destruct (lookup_lt_is_Some_2 row (Z.to_nat j)) as [cell Hc]; [lia|].
  exists cell. apply cellAt_Ok. exists row. repeat split; (lia || assumption).
Qed.

Lemma aliveAt_cell (grid : Grid) (i j : Z) (cell : Cell) :
  cellAt grid (Js.Int i) (Js.Int j) = Ok cell -> aliveAt grid i j = alive cell.
Proof. unfold aliveAt. intros ->. reflexivity. Qed.

Lemma b2z_range (b : bool) : 0 <= b2z b <= 1.
Proof. destruct b; simpl; lia. Qed.

Ltac bound_b2z :=
  repeat match goal with
         | |- context [b2z ?b] =>
             let H := fresh in
             pose proof (b2z_range b) as H; generalize dependent (b2z b); intros
         end.

(** ** Wrapping *)

Lemma wrap_range (index delta dimension : Z) :
  0 <= index < dimension -> -1 <= delta <= 1 ->
  0 <= wrap index delta dimension < dimension.
Proof. intros Hi Hd. unfold wrap. apply Z.rem_bound_pos; lia. Qed.

Lemma wrap_cases (index delta dimension : Z) :
  0 <= index < dimension -> -1 <= delta <= 1 ->
  wrap index delta dimension =
    if index + delta <? 0 then index + delta + dimension
    else if dimension <=? index + delta then index + delta - dimension
    else index + delta.
Proof.
  intros Hi Hd. unfold wrap.
  rewrite Z.rem_mod_nonneg by lia.
  destruct (Z.ltb_spec (index + delta) 0).
  - apply Z.mod_small. lia.
  - destruct (Z.leb_spec dimension (index + delta)).
    + symmetry. apply (Z.mod_unique_pos _ _ 2). lia. lia.
    + symmetry. apply (Z.mod_unique_pos _ _ 1). lia. lia.
Qed.

Lemma wrap_0 (index dimension : Z) :
  0 <= index < dimension -> wrap index 0 dimension = index.
Proof.
  intros Hi. rewrite wrap_cases by lia.
  destruct (Z.ltb_spec (index + 0) 0); [lia|].
  destruct (Z.leb_spec dimension (index + 0)); lia.
Qed.

Lemma rem_wrap (index delta dimension : Z) :
  0 < dimension ->
  Js.rem (index + delta + dimension) dimension =
  Js.Int (wrap index delta dimension).
Proof.
  intros Hd. unfold Js.rem, wrap.
  destruct (Z.eqb_spec dimension 0); [lia | reflexivity].
Qed.

(** ** [countNeighbors] on a well-formed grid *)

Lemma cellAt_cellOr (rows cols : Z) (grid : Grid) (i j : Z) :
  wf rows cols grid -> 0 <= i < rows -> 0 <= j < cols ->
  cellAt grid (Js.Int i) (Js.Int j) = Ok (cellOr grid i j).
Proof.
  intros Hwf Hi Hj. destruct (cellAt_wf _ _ _ _ _ Hwf Hi Hj) as [cell Hc].
  unfold cellOr. rewrite Hc. reflexivity.
Qed.

Lemma alive_cellOr (grid : Grid) (i j : Z) :
  alive (cellOr grid i j) = aliveAt grid i j.
Proof.
  unfold cellOr, aliveAt.
  destruct (cellAt grid (Js.Int i) (Js.Int j)); reflexivity.
Qed.

Lemma for_3 {S} (body : Z -> S -> result S) (s : S) :
  Js.for_ (-1) 2 body s =
  (s1 ← body (-1) s; s2 ← body 0 s1; s3 ← body 1 s2; Ok s3).
Proof. reflexivity. Qed.

Lemma cellAt_wrapped (rows cols : Z) (grid : Grid) (x y di dj : Z) :
  wf rows cols grid -> 0 <= x < rows -> 0 <= y < cols ->
  -1 <= di <= 1 -> -1 <= dj <= 1 ->
  cellAt grid (Js.rem (x + di + rows) rows) (Js.rem (y + dj + cols) cols) =
  Ok (cellOr grid (wrap x di rows) (wrap y dj cols)).
Proof.
  intros Hwf Hx Hy Hdi Hdj.
  rewrite !rem_wrap by lia.
  apply (cellAt_cellOr rows cols); auto using wrap_range.
Qed.

Lemma count_row (rows cols : Z) (grid : Grid) (x y di sum0 : Z) :
  wf rows cols grid -> 0 <= x < rows -> 0 <= y < cols -> -1 <= di <= 1 ->
  Js.for_ (-1) 2 (fun j sum =>
    cell ← cellAt grid (Js.rem (x + di + rows) rows) (Js.rem (y + j + cols) cols);
    Ok (sum + b2z (alive cell))) sum0 =
  Ok (sum0 + b2z (aliveAt grid (wrap x di rows) (wrap y (-1) cols))
           + b2z (aliveAt grid (wrap x di rows) (wrap y 0 cols))
           + b2z (aliveAt grid (wrap x di rows) (wrap y 1 cols))).
Proof.
  intros Hwf Hx Hy Hdi. rewrite for_3.
  rewrite !(cellAt_wrapped rows cols) by (assumption || lia).
  cbn [mbind result_bind]. rewrite !alive_cellOr. reflexivity.
Qed.

Lemma countNeighbors_liveNeighbors (rows cols : Z) (grid : Grid) (x y : Z) :
  wf rows cols grid -> 0 <= x < rows -> 0 <= y < cols ->
  countNeighbors rows cols grid x y = Ok (liveNeighbors rows cols grid x y).
Proof.
  intros Hwf Hx Hy. unfold countNeighbors. rewrite for_3.
  rewrite !(count_row rows cols) by (assumption || lia).
  cbn [mbind result_bind].
  rewrite !(count_row rows cols) by (assumption || lia).
  cbn [mbind result_bind].
  rewrite !(count_row rows cols) by (assumption || lia).
  cbn [mbind result_bind].
  rewrite (cellAt_cellOr rows cols) by assumption.
  cbn [mbind result_bind]. f_equal.
  unfold liveNeighbors, offsets, sumZ. cbn [List.map fold_right fst snd].
  rewrite !alive_cellOr, !wrap_0 by assumption. lia.
Qed.

Lemma liveNeighbors_range (rows cols : Z) (grid : Grid) (x y : Z) :
  0 <= liveNeighbors rows cols grid x y <= 8.
Proof.
  unfold liveNeighbors, offsets, sumZ. cbn [List.map fold_right fst snd].
  bound_b2z. lia.
Qed.

Lemma sumZ_b2z_nonneg {A} (f : A -> bool) (l : list A) :
  0 <= sumZ (List.map (fun d => b2z (f d)) l).
Proof.
  induction l as [|e l IH]; cbn [List.map sumZ fold_right]; [lia|].
  fold (sumZ (List.map (fun d => b2z (f d)) l)).
  pose proof (b2z_range (f e)). lia.
Qed.

Lemma sumZ_b2z_pos {A} (f : A -> bool) (l : list A) (d : A) :
  In d l -> f d = true -> 1 <= sumZ (List.map (fun d => b2z (f d)) l).
Proof.
  intros Hin Hd. induction l as [|e l IH]; [destruct Hin|].
  cbn [List.map sumZ fold_right].
  fold (sumZ (List.map (fun d => b2z (f d)) l)).
  destruct Hin as [-> | Hin].
  - rewrite Hd. pose proof (sumZ_b2z_nonneg f l). simpl b2z. lia.
  - specialize (IH Hin). pose proof (b2z_range (f e)). lia.
Qed.

(** A live cell at [(0,0)] is seen from position [(x, y)] through the
    offset that wraps onto it. *)
Lemma liveNeighbors_sees (rows cols : Z) (grid : Grid) (x y : Z) (d : Z * Z) :
  In d offsets -> wrap x (fst d) rows = 0 -> wrap y (snd d) cols = 0 ->
  aliveAt grid 0 0 = true -> 1 <= liveNeighbors rows cols grid x y.
Proof.
  intros Hd Hx Hy Ha. unfold liveNeighbors.
  apply (sumZ_b2z_pos
           (fun d => aliveAt grid (wrap x (fst d) rows) (wrap y (snd d) cols))
           offsets d Hd).
  rewrite Hx, Hy. exact Ha.
Qed.

(** C2. On a well-formed grid with [rows > 0] and [cols > 0] and at an
    in-range coordinate, [countNeighbors] returns the number of live cells
    among the eight positions at offsets [{-1,0,1} x {-1,0,1}] minus
    [(0,0)], each index wrapped as [(index + delta + dimension) %
    dimension]; the count lies in [0..8]; a live cell at [(0,0)] is counted
    at [(rows-1, cols-1)], [(rows-1, 0)] and [(0, cols-1)]; and in a 1 x 1
    grid a live cell's own count is 8. *)
Theorem countNeighbors_toroidal (rows cols : Z) (grid : Grid) (x y : Z) :
  0 < rows -> 0 < cols -> wf rows cols grid ->
  0 <= x < rows -> 0 <= y < cols ->
  countNeighbors rows cols grid x y = Ok (liveNeighbors rows cols grid x y) /\
  0 <= liveNeighbors rows cols grid x y <= 8 /\
  (aliveAt grid 0 0 = true ->
   forall p, In p [(rows - 1, cols - 1); (rows - 1, 0); (0, cols - 1)] ->
   exists n, countNeighbors rows cols grid (fst p) (snd p) = Ok n /\ 1 <= n) /\
  (rows = 1 -> cols = 1 -> aliveAt grid x y = true ->
   countNeighbors rows cols grid x y = Ok 8).
Proof.
  intros Hrows Hcols Hwf Hx Hy.
  split; [apply countNeighbors_liveNeighbors; assumption|].
  split; [apply liveNeighbors_range|].
  split.
  - intros Ha p Hp.
    assert (Hr1 : wrap (rows - 1) 1 rows = 0).
    { rewrite wrap_cases by lia.
      destruct (Z.ltb_spec (rows - 1 + 1) 0); [lia|].
      destruct (Z.leb_spec rows (rows - 1 + 1)); lia. }
    assert (Hc1 : wrap (cols - 1) 1 cols = 0).
    { rewrite wrap_cases by lia.
      destruct (Z.ltb_spec (cols - 1 + 1) 0); [lia|].
      destruct (Z.leb_spec cols (cols - 1 + 1)); lia. }
    assert (Hr0 : wrap 0 0 rows = 0) by (apply wrap_0; lia).
    assert (Hc0 : wrap 0 0 cols = 0) by (apply wrap_0; lia).
    cbn [In] in Hp. destruct Hp as [<- | [<- | [<- | []]]]; cbn [fst snd];
      eexists; (split; [apply countNeighbors_liveNeighbors; (assumption || lia)|]).
    + apply (liveNeighbors_sees _ _ _ _ _ (1, 1)); cbn; auto 10.
    + apply (liveNeighbors_sees _ _ _ _ _ (1, 0)); cbn; auto 10.
    + apply (liveNeighbors_sees _ _ _ _ _ (0, 1)); cbn; auto 10.
  - intros -> -> Ha.
    rewrite countNeighbors_liveNeighbors by assumption. f_equal.
    assert (x = 0) by lia. assert (y = 0) by lia. subst x y.
    unfold liveNeighbors, offsets, sumZ. cbn [List.map fold_right fst snd].
    change (wrap 0 (-1) 1) with 0. change (wrap 0 0 1) with 0.
    change (wrap 0 1 1) with 0. rewrite Ha. reflexivity.
Qed.

Lemma countNeighbors_toroidal_witness :
  countNeighbors 1 1 [[liveCell]] 0 0 = Ok 8.
Proof.
  refine (proj2 (proj2 (proj2
    (countNeighbors_toroidal 1 1 [[liveCell]] 0 0 _ _ _ _ _))) _ _ _);
    try lia; try reflexivity.
  split; [reflexivity | repeat constructor].
Defined.

(** ** The paint loop of [draw] on a well-formed grid *)

Lemma alter_middle {A} (f : A -> A) (pre post : list A) (x : A) :
  alter f (length pre) (pre ++ x :: post) = pre ++ f x :: post.
Proof.
  replace (length pre) with (length pre + 0)%nat by lia.
  rewrite alter_app_r. reflexivity.
Qed.

Lemma cellAt_middle (gpre gpost : Grid) (pre post : list Cell) (cell : Cell) :
  cellAt (gpre ++ (pre ++ cell :: post) :: gpost)
         (Js.Int (Z.of_nat (length gpre))) (Js.Int (Z.of_nat (length pre))) =
  Ok cell.
Proof. unfold cellAt. rewrite !get_Int_app. reflexivity. Qed.

Lemma setOpacity_middle (gpre gpost : Grid) (pre post : list Cell)
      (cell : Cell) (o : float) :
  setOpacity (gpre ++ (pre ++ cell :: post) :: gpost)
             (Z.of_nat (length gpre)) (Z.of_nat (length pre)) o =
  gpre ++ (pre ++ mkCell (alive cell) o :: post) :: gpost.
Proof. unfold setOpacity. rewrite !Nat2Z.id, !alter_middle. reflexivity. Qed.

Lemma drawCell_middle (gpre gpost : Grid) (pre post : list Cell)
      (cell : Cell) (ops : list CanvasOp) :
  drawCell (Z.of_nat (length gpre)) (Z.of_nat (length pre))
           (gpre ++ (pre ++ cell :: post) :: gpost, ops) =
  Ok (gpre ++ (pre ++ faded cell :: post) :: gpost,
      ops ++ List.map toDot
        (rowSnapshot (Z.of_nat (length gpre)) (Z.of_nat (length pre))
                     [faded cell])).
Proof.
  unfold drawCell. rewrite cellAt_middle. cbn [mbind result_bind].
  match goal with
  | |- context [cellAt ?g _ _] =>
      assert (Hg : g = gpre ++ (pre ++ faded cell :: post) :: gpost)
  end.
  { unfold faded, fade.
    destruct (alive cell && (opacity cell <? 1)%float)%bool;
      [apply setOpacity_middle|].
    destruct (negb (alive cell) && (0 <? opacity cell)%float)%bool;
      [apply setOpacity_middle|].
    destruct cell; reflexivity. }
  rewrite Hg, cellAt_middle. cbn [mbind result_bind rowSnapshot faded opacity].
  destruct (0 <? fade cell)%float; cbn [List.map app toDot].
  - reflexivity.
  - rewrite app_nil_r. reflexivity.
Qed.

Lemma rowSnapshot_cons (i j : Z) (cell : Cell) (row : list Cell) :
  rowSnapshot i j (cell :: row) =
  rowSnapshot i j [cell] ++ rowSnapshot i (j + 1) row.
Proof. cbn [rowSnapshot]. rewrite app_nil_r. reflexivity. Qed.

Lemma paint_row (gpre gpost : Grid) (post pre : list Cell)
      (ops : list CanvasOp) :
  Js.loop (length post) (Z.of_nat (length pre))
          (fun j st => drawCell (Z.of_nat (length gpre)) j st)
          (gpre ++ (pre ++ post) :: gpost, ops) =
  Ok (gpre ++ (pre ++ List.map faded post) :: gpost,
      ops ++ List.map toDot
        (rowSnapshot (Z.of_nat (length gpre)) (Z.of_nat (length pre))
                     (List.map faded post))).
Proof.
  revert pre ops. induction post as [|cell post IH]; intros pre ops.
  - cbn. rewrite !app_nil_r. reflexivity.
  - cbn [length Js.loop List.map]. rewrite drawCell_middle.
    cbn [mbind result_bind].
    specialize (IH (pre ++ [faded cell])
                   (ops ++ List.map toDot
                      (rowSnapshot (Z.of_nat (length gpre))
                                   (Z.of_nat (length pre)) [faded cell]))).
    rewrite length_app in IH. cbn [length] in IH.
    replace (Z.of_nat (length pre + 1)) with (Z.of_nat (length pre) + 1)
      in IH by lia.
    rewrite <- !app_assoc in IH. cbn [app] in IH. rewrite IH.
    rewrite (rowSnapshot_cons _ _ (faded cell) (List.map faded post)).
    rewrite List.map_app. reflexivity.
Qed.

Lemma paint_rows (cols : Z) (gpost gpre : Grid) (ops : list CanvasOp) :
  Forall (fun r => Z.of_nat (length r) = cols) gpost ->
  Js.loop (length gpost) (Z.of_nat (length gpre))
          (fun i st => Js.for_ 0 cols (fun j st => drawCell i j st) st)
          (gpre ++ gpost, ops) =
  Ok (gpre ++ List.map (List.map faded) gpost,
      ops ++ List.map toDot
        (gridSnapshot (Z.of_nat (length gpre))
                      (List.map (List.map faded) gpost))).
Proof.
  revert gpre ops. induction gpost as [|row gpost IH]; intros gpre ops Hall.
  - cbn. rewrite !app_nil_r. reflexivity.
  - apply Forall_cons in Hall as [Hrow Hall].
    cbn [length Js.loop List.map gridSnapshot].
    pose proof (paint_row gpre gpost row [] ops) as Hr.
    cbn [app length] in Hr. change (Z.of_nat 0) with 0 in Hr.
    replace (length row) with (Z.to_nat (cols - 0)) in Hr by lia.
    fold (Js.for_ 0 cols (fun j st => drawCell (Z.of_nat (length gpre)) j st)
                  (gpre ++ row :: gpost, ops)) in Hr.
    rewrite Hr.
    cbn [mbind result_bind].
    specialize (IH (gpre ++ [List.map faded row])
                   (ops ++ List.map toDot
                      (rowSnapshot (Z.of_nat (length gpre)) 0
                                   (List.map faded row))) Hall).
    rewrite length_app in IH. cbn [length] in IH.
    replace (Z.of_nat (length gpre + 1)) with (Z.of_nat (length gpre) + 1)
      in IH by lia.
    rewrite <- !app_assoc in IH. cbn [app] in IH. rewrite IH.
    rewrite List.map_app. reflexivity.
Qed.

(** On a well-formed grid the paint loop never throws: it fades every
    cell and issues one dot per visible cell, after clearing. *)
Lemma paint_spec (rows cols : Z) (grid : Grid) :
  wf rows cols grid ->
  paint rows cols grid =
  Ok (List.map (List.map faded) grid,
      Clear :: List.map toDot (renderSnapshot (List.map (List.map faded) grid))).
Proof.
  intros [Hrows Hall]. unfold paint, Js.for_.
  replace (Z.to_nat (rows - 0)) with (length grid) by lia.
  exact (paint_rows cols grid [] [Clear] Hall).
Qed.

(** ** The next generation on a well-formed grid *)

Lemma length_imapZ {A B} (h : Z -> A -> B) (i : Z) (l : list A) :
  length (imapZ h i l) = length l.
Proof. revert i. induction l as [|x l IH]; intros i; cbn; auto. Qed.

Lemma lookup_imapZ {A B} (h : Z -> A -> B) (i : Z) (l : list A) (k : nat) :
  imapZ h i l !! k = h (i + Z.of_nat k) <$> l !! k.
Proof.
  revert i k. induction l as [|x l IH]; intros i k; [reflexivity|].
  destruct k as [|k]; cbn [imapZ].
  - cbn. rewrite Z.add_0_r. reflexivity.
  - change ((h i x :: imapZ h (i + 1) l) !! S k) with (imapZ h (i + 1) l !! k).
    change ((x :: l) !! S k) with (l !! k).
    rewrite IH. replace (i + 1 + Z.of_nat k) with (i + Z.of_nat (S k)) by lia.
    reflexivity.
Qed.

Lemma map_from_imapZ {A B} (f : Z -> A -> result B) (h : Z -> A -> B)
      (i : Z) (l : list A) :
  (forall k x, l !! k = Some x -> f (i + Z.of_nat k) x = Ok (h (i + Z.of_nat k) x)) ->
  Js.map_from f i l = Ok (imapZ h i l).
Proof.
  revert i. induction l as [|x l IH]; intros i Hf; [reflexivity|].
  cbn [Js.map_from imapZ].
  pose proof (Hf 0%nat x eq_refl) as H0. rewrite Z.add_0_r in H0. rewrite H0.
  cbn [mbind result_bind]. rewrite IH; [reflexivity|].
  intros k y Hk. specialize (Hf (S k) y Hk).
  replace (i + Z.of_nat (S k)) with (i + 1 + Z.of_nat k) in Hf by lia.
  exact Hf.
Qed.

Lemma next_spec (rows cols : Z) (grid : Grid) :
  wf rows cols grid -> next rows cols grid = Ok (nextGrid rows cols grid).
Proof.
  intros Hwf. unfold next, Js.map, nextGrid.
  apply map_from_imapZ. intros k row Hk.
  apply map_from_imapZ. intros k' cell Hk'.
  pose proof (wf_lookup _ _ _ _ _ Hwf Hk) as Hlen.
  apply lookup_lt_Some in Hk, Hk'. destruct Hwf as [Hrows Hall].
  rewrite (countNeighbors_liveNeighbors rows cols) by (try split; auto; lia).
  reflexivity.
Qed.

Lemma wf_nextGrid (rows cols : Z) (grid : Grid) :
  wf rows cols grid -> wf rows cols (nextGrid rows cols grid).
Proof.
  intros [Hrows Hall]. unfold nextGrid. split.
  - rewrite length_imapZ. exact Hrows.
  - apply Forall_forall. intros r Hr.
    apply list_elem_of_lookup in Hr as [k Hk].
    rewrite lookup_imapZ in Hk.
    destruct (grid !! k) as [row|] eqn:Hrow; [|discriminate].
    injection Hk as <-. rewrite length_imapZ.
    rewrite Forall_forall in Hall. apply Hall.
    eapply list_elem_of_lookup_2; eauto.
Qed.

Lemma cellAt_nextGrid (rows cols : Z) (grid : Grid) (i j : Z) (cell : Cell) :
  cellAt grid (Js.Int i) (Js.Int j) = Ok cell ->
  cellAt (nextGrid rows cols grid) (Js.Int i) (Js.Int j) =
  Ok (nextCell rows cols grid i j cell).
Proof.
  intros H. apply cellAt_Ok in H as (row & [Hi Hr] & [Hj Hc]).
  apply cellAt_Ok. exists (imapZ (nextCell rows cols grid i) 0 row).
  split; (split; [assumption|]).
  - unfold nextGrid. rewrite lookup_imapZ, Hr. cbn.
    replace (0 + Z.of_nat (Z.to_nat i)) with i by lia. reflexivity.
  - rewrite lookup_imapZ, Hc. cbn.
    replace (0 + Z.of_nat (Z.to_nat j)) with j by lia. reflexivity.
Qed.

Lemma willBeAlive_conway (cell : Cell) (n : Z) :
  willBeAlive cell n = true <-> conway (alive cell) n.
Proof.
  unfold willBeAlive, conway. destruct (alive cell).
  - rewrite andb_true_iff, Z.leb_le, Z.leb_le. split.
    + intros [H2 H3]. left. split; [reflexivity | lia].
    + intros [[_ H] | [H _]]; [lia | discriminate].
  - rewrite Z.eqb_eq. split.
    + intros H. right. split; [reflexivity | exact H].
    + intros [[H _] | [_ H]]; [discriminate | exact H].
Qed.

(** C1. On every well-formed grid the next generation is computed without
    an exception, is well formed again, and at every cell of the grid its
    alive flag is true exactly when the cell is alive with 2 or 3 live
    neighbours or dead with exactly 3, the neighbour count being the one
    [countNeighbors] returns on the input grid. *)
Theorem next_conway (rows cols : Z) (grid : Grid) :
  wf rows cols grid ->
  exists grid',
    next rows cols grid = Ok grid' /\ wf rows cols grid' /\
    forall i j cell,
      cellAt grid (Js.Int i) (Js.Int j) = Ok cell ->
      exists n cell',
        countNeighbors rows cols grid i j = Ok n /\
        n = liveNeighbors rows cols grid i j /\
        cellAt grid' (Js.Int i) (Js.Int j) = Ok cell' /\
        (alive cell' = true <->
         (alive cell = true /\ (n = 2 \/ n = 3)) \/
         (alive cell = false /\ n = 3)).
Proof.
  intros Hwf. exists (nextGrid rows cols grid).
  split; [apply next_spec; assumption|].
  split; [apply wf_nextGrid; assumption|].
  intros i j cell Hcell.
  destruct (cellAt_in_range _ _ _ _ _ _ Hwf Hcell) as [Hi Hj].
  exists (liveNeighbors rows cols grid i j), (nextCell rows cols grid i j cell).
  split; [apply countNeighbors_liveNeighbors; assumption|].
  split; [reflexivity|].
  split; [apply cellAt_nextGrid; assumption|].
  unfold nextCell. cbn [alive]. apply willBeAlive_conway.
Qed.

Lemma wf_blinker5 : wf 5 5 blinker5.
Proof. split; [reflexivity | repeat constructor]. Qed.

Lemma next_conway_witness :
  exists grid',
    next 5 5 blinker5 = Ok grid' /\ wf 5 5 grid' /\
    forall i j cell,
      cellAt blinker5 (Js.Int i) (Js.Int j) = Ok cell ->
      exists n cell',
        countNeighbors 5 5 blinker5 i j = Ok n /\
        n = liveNeighbors 5 5 blinker5 i j /\
        cellAt grid' (Js.Int i) (Js.Int j) = Ok cell' /\
        (alive cell' = true <->
         (alive cell = true /\ (n = 2 \/ n = 3)) \/
         (alive cell = false /\ n = 3)).
Proof. exact (next_conway 5 5 blinker5 wf_blinker5). Defined.

Lemma map_from_preserves {A B C} (f : Z -> A -> result B)
      (g : B -> C) (g' : A -> C) (i : Z) (l : list A) (l' : list B) :
  (forall k x y, f k x = Ok y -> g y = g' x) ->
  Js.map_from f i l = Ok l' -> List.map g l' = List.map g' l.
Proof.
  intros Hf. revert i l'. induction l as [|x l IH]; intros i l' H.
  - cbn in H. injection H as <-. reflexivity.
  - cbn [Js.map_from] in H.
    destruct (f i x) as [y|] eqn:Hy; [|discriminate].
    cbn [mbind result_bind] in H.
    destruct (Js.map_from f (i + 1) l) as [ys|] eqn:Hys; [|discriminate].
    cbn [mbind result_bind] in H. injection H as <-.
    cbn [List.map]. rewrite (Hf _ _ _ Hy), (IH _ _ Hys). reflexivity.
Qed.

(** C6. Whenever the next generation of a grid is computed, its grid of
    opacities equals that of the input grid; and on every well-formed grid
    it is computed, the cell at each coordinate of the new grid carrying
    exactly the opacity of the cell at that coordinate of the input. *)
Theorem next_keeps_opacity (rows cols : Z) (grid : Grid) :
  (forall grid',
     next rows cols grid = Ok grid' ->
     List.map (List.map opacity) grid' = List.map (List.map opacity) grid) /\
  (wf rows cols grid ->
   exists grid',
     next rows cols grid = Ok grid' /\
     forall i j cell,
       cellAt grid (Js.Int i) (Js.Int j) = Ok cell ->
       exists cell',
         cellAt grid' (Js.Int i) (Js.Int j) = Ok cell' /\
         opacity cell' = opacity cell).
Proof.
  split.
  - intros grid' H. unfold next, Js.map in H.
    eapply map_from_preserves; [|exact H].
    intros k row row' Hrow. cbn beta in Hrow.
    eapply map_from_preserves; [|exact Hrow].
    intros k' cell cell' Hcell. cbn beta in Hcell.
    destruct (countNeighbors rows cols grid k k'); [|discriminate].
    cbn [mbind result_bind] in Hcell. injection Hcell as <-. reflexivity.
  - intros Hwf. exists (nextGrid rows cols grid).
    split; [apply next_spec; assumption|].
    intros i j cell Hcell. exists (nextCell rows cols grid i j cell).
    split; [apply cellAt_nextGrid; assumption | reflexivity].
Qed.

Lemma next_keeps_opacity_witness :
  exists grid',
    next 5 5 blinker5 = Ok grid' /\
    forall i j cell,
      cellAt blinker5 (Js.Int i) (Js.Int j) = Ok cell ->
      exists cell',
        cellAt grid' (Js.Int i) (Js.Int j) = Ok cell' /\
        opacity cell' = opacity cell.
Proof. exact (proj2 (next_keeps_opacity 5 5 blinker5) wf_blinker5). Defined.

(** ** Lines on the torus: the blinker *)

Ltac case_cmp :=
  repeat match goal with
         | |- context [?a <? ?b] => destruct (Z.ltb_spec a b)
         | |- context [?a <=? ?b] => destruct (Z.leb_spec a b)
         | |- context [?a =? ?b] => destruct (Z.eqb_spec a b)
         end.

Lemma b2z_andb (p q : bool) : b2z (p && q) = b2z p * b2z q.
Proof. destruct p, q; reflexivity. Qed.

Lemma liveNeighbors_product (rows cols : Z) (grid : Grid) (P Q : Z -> bool)
      (x y : Z) :
  (forall i j, 0 <= i < rows -> 0 <= j < cols ->
               aliveAt grid i j = P i && Q j) ->
  0 <= x < rows -> 0 <= y < cols ->
  liveNeighbors rows cols grid x y =
  count3 P rows x * count3 Q cols y - b2z (P x && Q y).
Proof.
  intros Hg Hx Hy.
  unfold liveNeighbors, offsets, sumZ, count3.
  cbn [List.map fold_right fst snd].
  rewrite !Hg by (apply wrap_range; lia).
  rewrite !wrap_0 by assumption. rewrite !b2z_andb. ring.
Qed.

Lemma wrap_linear (index delta dimension : Z) :
  0 <= index < dimension -> -1 <= delta <= 1 ->
  0 <= wrap index delta dimension < dimension /\
  (wrap index delta dimension = index + delta \/
   wrap index delta dimension = index + delta + dimension \/
   wrap index delta dimension = index + delta - dimension).
Proof.
  intros Hi Hd. split; [apply wrap_range; assumption|].
  rewrite wrap_cases by assumption. case_cmp; lia.
Qed.

Ltac name_wraps n x :=
  let H1 := fresh in let H2 := fresh in let H3 := fresh in
  pose proof (wrap_linear x (-1) n ltac:(lia) ltac:(lia)) as H1;
  pose proof (wrap_linear x 0 n ltac:(lia) ltac:(lia)) as H2;
  pose proof (wrap_linear x 1 n ltac:(lia) ltac:(lia)) as H3;
  generalize dependent (wrap x (-1) n);
  generalize dependent (wrap x 0 n);
  generalize dependent (wrap x 1 n); intros.

Lemma wrap_inverse (index delta dimension : Z) :
  0 <= index < dimension -> -1 <= delta <= 1 ->
  wrap (wrap index delta dimension) (- delta) dimension = index.
Proof.
  intros Hi Hd.
  destruct (wrap_linear index delta dimension Hi Hd) as [Hr Hw].
  destruct (wrap_linear (wrap index delta dimension) (- delta) dimension
              Hr ltac:(lia)) as [Hr' Hw'].
  lia.
Qed.

Lemma eqb_wrap (n x r d : Z) :
  0 <= x < n -> 0 <= r < n -> -1 <= d <= 1 ->
  (wrap x d n =? r) = (x =? wrap r (- d) n).
Proof.
  intros Hx Hr Hd.
  destruct (Z.eqb_spec (wrap x d n) r) as [E | E];
    destruct (Z.eqb_spec x (wrap r (- d) n)) as [E' | E']; try reflexivity.
  - destruct E'. rewrite <- E. symmetry. apply wrap_inverse; assumption.
  - destruct E. rewrite E'.
    rewrite <- (Z.opp_involutive d) at 2. apply wrap_inverse; lia.
Qed.

Lemma count3_point_torus (n r x : Z) :
  3 <= n -> 0 <= r < n -> 0 <= x < n ->
  count3 (point r) n x = b2z (near n r x).
Proof.
  intros Hn Hr Hx. unfold count3, point, near.
  rewrite !eqb_wrap by lia.
  change (- (-1)) with 1. change (- 0) with 0. change (- (1)) with (-1).
  rewrite (wrap_0 r n Hr).
  pose proof (wrap_linear r (-1) n Hr ltac:(lia)) as [R1 L1].
  pose proof (wrap_linear r 1 n Hr ltac:(lia)) as [R2 L2].
  generalize dependent (wrap r (-1) n). generalize dependent (wrap r 1 n).
  intros. case_cmp; cbn [b2z orb]; lia.
Qed.

Lemma near_sum (n c k : Z) :
  3 <= n -> 0 <= c < n ->
  b2z (near n c k) =
  b2z (point (wrap c (-1) n) k) + b2z (point c k) + b2z (point (wrap c 1 n) k).
Proof.
  intros Hn Hc. unfold near, point. name_wraps n c.
  case_cmp; cbn [b2z orb]; lia.
Qed.

Lemma wrap_down_up (c n : Z) :
  0 <= c < n -> wrap (wrap c (-1) n) 1 n = c.
Proof. intros Hc. exact (wrap_inverse c (-1) n Hc ltac:(lia)). Qed.

Lemma wrap_up_down (c n : Z) :
  0 <= c < n -> wrap (wrap c 1 n) (-1) n = c.
Proof. intros Hc. exact (wrap_inverse c 1 n Hc ltac:(lia)). Qed.

Lemma count3_near (n c y : Z) :
  4 <= n -> 0 <= c < n -> 0 <= y < n ->
  (point c y = true /\ near n c y = true /\ count3 (near n c) n y = 3) \/
  (point c y = false /\ near n c y = true /\ count3 (near n c) n y = 2) \/
  (point c y = false /\ near n c y = false /\ 0 <= count3 (near n c) n y <= 2).
Proof.
  intros Hn Hc Hy.
  assert (Hsum : count3 (near n c) n y =
                 b2z (near n (wrap c (-1) n) y) + b2z (near n c y)
                 + b2z (near n (wrap c 1 n) y)).
  { unfold count3.
    rewrite (near_sum n c (wrap y (-1) n)), (near_sum n c (wrap y 0 n)),
      (near_sum n c (wrap y 1 n)) by lia.
    pose proof (count3_point_torus n (wrap c (-1) n) y ltac:(lia)
                  (wrap_range c (-1) n Hc ltac:(lia)) Hy) as H1.
    pose proof (count3_point_torus n c y ltac:(lia) Hc Hy) as H2.
    pose proof (count3_point_torus n (wrap c 1 n) y ltac:(lia)
                  (wrap_range c 1 n Hc ltac:(lia)) Hy) as H3.
    unfold count3 in H1, H2, H3. lia. }
  rewrite Hsum. unfold near, point.
  rewrite wrap_down_up, wrap_up_down by assumption.
  pose proof (wrap_linear c (-1) n Hc ltac:(lia)) as [R1 L1].
  pose proof (wrap_linear c 1 n Hc ltac:(lia)) as [R2 L2].
  pose proof (wrap_linear (wrap c (-1) n) (-1) n R1 ltac:(lia)) as [R11 L11].
  pose proof (wrap_linear (wrap c 1 n) 1 n R2 ltac:(lia)) as [R22 L22].
  generalize dependent (wrap (wrap c (-1) n) (-1) n).
  generalize dependent (wrap (wrap c 1 n) 1 n).
  generalize dependent (wrap c (-1) n).
  generalize dependent (wrap c 1 n). intros.
  case_cmp; cbn [b2z orb];
    first [ left; split; [reflexivity | split; [reflexivity | lia]]
          | right; left; split; [reflexivity | split; [reflexivity | lia]]
          | right; right; split; [reflexivity | split; [reflexivity | lia]]
          | exfalso; lia ].
Qed.

(** Conway's rule at a cell of a grid whose live cells are a line of
    three: [pr], [sr] say whether the cell's row is the line's row, or
    within one of it; [pc], [sc] the same for the column; [b] counts the
    line's cells in the three columns around the cell. *)
Lemma line_rule (pr sr sc pc : bool) (b : Z) :
  (pr = true -> sr = true) ->
  (pc = true /\ sc = true /\ b = 3) \/
  (pc = false /\ sc = true /\ b = 2) \/
  (pc = false /\ sc = false /\ 0 <= b <= 2) ->
  willBeAlive (mkCell (pr && sc) 0%float) (b2z sr * b - b2z (pr && sc)) =
  sr && pc.
Proof.
  intros Hps Hb. unfold willBeAlive. cbn [alive].
  destruct pr, sr, sc, pc; cbn [andb b2z];
    try (specialize (Hps eq_refl); discriminate);
    destruct Hb as [(H1 & H2 & H3) | [(H1 & H2 & H3) | (H1 & H2 & H3)]];
    try discriminate; case_cmp; cbn [andb]; try reflexivity; lia.
Qed.

Lemma cellAt_lookup (grid : Grid) (i j : nat) (row : list Cell) (cell : Cell) :
  grid !! i = Some row -> row !! j = Some cell ->
  cellAt grid (Js.Int (Z.of_nat i)) (Js.Int (Z.of_nat j)) = Ok cell.
Proof.
  intros Hr Hc. apply cellAt_Ok. exists row.
  rewrite !Nat2Z.id. repeat split; (lia || assumption).
Qed.

(** Two well-formed grids that agree at every coordinate are equal. *)
Lemma grid_ext (rows cols : Z) (g1 g2 : Grid) :
  wf rows cols g1 -> wf rows cols g2 ->
  (forall i j c1 c2,
     cellAt g1 (Js.Int i) (Js.Int j) = Ok c1 ->
     cellAt g2 (Js.Int i) (Js.Int j) = Ok c2 -> c1 = c2) ->
  g1 = g2.
Proof.
  intros Hwf1 Hwf2 Hcells.
  apply (list_eq_same_length _ _ (length g1)); [| reflexivity |].
  { destruct Hwf1, Hwf2. lia. }
  intros i r1 r2 _ Hr1 Hr2.
  pose proof (wf_lookup _ _ _ _ _ Hwf1 Hr1).
  pose proof (wf_lookup _ _ _ _ _ Hwf2 Hr2).
  apply (list_eq_same_length _ _ (length r1)); [lia | reflexivity |].
  intros j c1 c2 _ Hc1 Hc2.
  apply (Hcells (Z.of_nat i) (Z.of_nat j)); eapply cellAt_lookup; eauto.
Qed.

Lemma aliveAt_nextGrid (rows cols : Z) (grid : Grid) (i j : Z) :
  wf rows cols grid -> 0 <= i < rows -> 0 <= j < cols ->
  aliveAt (nextGrid rows cols grid) i j =
  willBeAlive (cellOr grid i j) (liveNeighbors rows cols grid i j).
Proof.
  intros Hwf Hi Hj.
  pose proof (cellAt_cellOr _ _ _ _ _ Hwf Hi Hj) as Hc.
  apply (cellAt_nextGrid rows cols) in Hc.
  rewrite (aliveAt_cell _ _ _ _ Hc). reflexivity.
Qed.

(** A grid whose alive flags the life rule leaves alone is its own next
    generation. *)
Lemma next_fixed (rows cols : Z) (grid : Grid) :
  wf rows cols grid ->
  (forall i j, 0 <= i < rows -> 0 <= j < cols ->
               aliveAt (nextGrid rows cols grid) i j = aliveAt grid i j) ->
  next rows cols grid = Ok grid.
Proof.
  intros Hwf Hsame. rewrite next_spec by assumption. f_equal.
  apply (grid_ext rows cols); [apply wf_nextGrid; assumption | assumption |].
  intros i j c1 c0 H1 H0.
  destruct (cellAt_in_range _ _ _ _ _ _ Hwf H0) as [Hi Hj].
  pose proof (Hsame i j Hi Hj) as Ha.
  rewrite (aliveAt_cell _ _ _ _ H1), (aliveAt_cell _ _ _ _ H0) in Ha.
  rewrite (cellAt_nextGrid rows cols _ _ _ _ H0) in H1. injection H1 as <-.
  destruct c0 as [a0 o0]. unfold nextCell in *. cbn in *. rewrite Ha.
  reflexivity.
Qed.

Lemma point_near (n center k : Z) :
  point center k = true -> near n center k = true.
Proof.
  unfold point, near. intros ->. rewrite orb_true_r. reflexivity.
Qed.

(** One generation turns the horizontal line of three into the vertical
    one through the same centre. *)
Lemma next_hline (rows cols r c : Z) (grid : Grid) :
  wf rows cols grid -> 3 <= rows -> 4 <= cols ->
  0 <= r < rows -> 0 <= c < cols ->
  (forall i j, 0 <= i < rows -> 0 <= j < cols ->
               aliveAt grid i j = hline rows cols r c i j) ->
  forall i j, 0 <= i < rows -> 0 <= j < cols ->
              aliveAt (nextGrid rows cols grid) i j = vline rows cols r c i j.
Proof.
  intros Hwf Hrows Hcols Hr Hc Hg i j Hi Hj.
  rewrite (aliveAt_nextGrid rows cols) by assumption.
  unfold willBeAlive. rewrite alive_cellOr, Hg by assumption.
  rewrite (liveNeighbors_product rows cols grid (point r) (near cols c))
    by assumption.
  rewrite count3_point_torus by lia.
  apply (line_rule (point r i) (near rows r i) (near cols c j) (point c j)).
  - apply point_near.
  - apply count3_near; assumption.
Qed.

(** And the vertical line back into the horizontal one. *)
Lemma next_vline (rows cols r c : Z) (grid : Grid) :
  wf rows cols grid -> 4 <= rows -> 3 <= cols ->
  0 <= r < rows -> 0 <= c < cols ->
  (forall i j, 0 <= i < rows -> 0 <= j < cols ->
               aliveAt grid i j = vline rows cols r c i j) ->
  forall i j, 0 <= i < rows -> 0 <= j < cols ->
              aliveAt (nextGrid rows cols grid) i j = hline rows cols r c i j.
Proof.
  intros Hwf Hrows Hcols Hr Hc Hg i j Hi Hj.
  rewrite (aliveAt_nextGrid rows cols) by assumption.
  unfold willBeAlive. rewrite alive_cellOr, Hg by assumption.
  rewrite (liveNeighbors_product rows cols grid (near rows r) (point c))
    by assumption.
  rewrite count3_point_torus by lia.
  unfold vline, hline.
  rewrite (andb_comm (near rows r i)), (andb_comm (point r i)), Z.mul_comm.
  apply (line_rule (point c j) (near cols c j) (near rows r i) (point r i)).
  - apply point_near.
  - apply count3_near; assumption.
Qed.

(** C4. On a well-formed grid of at least 4 x 4 cells whose live cells are
    exactly a horizontal line of three, centred at any cell [(r, c)] of
    the grid (the line may lie in the first or last row and may wrap
    around the seam), one generation yields exactly the vertical line of
    three through the same centre, and a second generation yields the
    original grid again: the same alive flags and, opacities being carried
    over, the same grid. *)
Theorem blinker_period_two (rows cols r c : Z) (grid : Grid) :
  wf rows cols grid -> 4 <= rows -> 4 <= cols ->
  0 <= r < rows -> 0 <= c < cols ->
  (forall i j, 0 <= i < rows -> 0 <= j < cols ->
               aliveAt grid i j = hline rows cols r c i j) ->
  exists g1 g2,
    next rows cols grid = Ok g1 /\
    (forall i j, 0 <= i < rows -> 0 <= j < cols ->
                 aliveAt g1 i j = vline rows cols r c i j) /\
    next rows cols g1 = Ok g2 /\
    List.map (List.map alive) g2 = List.map (List.map alive) grid /\
    g2 = grid.
Proof.
  intros Hwf Hrows Hcols Hr Hc Hg.
  set (g1 := nextGrid rows cols grid).
  assert (Hwf1 : wf rows cols g1) by (apply wf_nextGrid; assumption).
  assert (Hg1 : forall i j, 0 <= i < rows -> 0 <= j < cols ->
                            aliveAt g1 i j = vline rows cols r c i j).
  { apply next_hline; (assumption || lia). }
  set (g2 := nextGrid rows cols g1).
  assert (Hwf2 : wf rows cols g2) by (apply wf_nextGrid; assumption).
  assert (Hg2 : forall i j, 0 <= i < rows -> 0 <= j < cols ->
                            aliveAt g2 i j = hline rows cols r c i j).
  { apply next_vline; (assumption || lia). }
  assert (Heq : g2 = grid).
  { apply (grid_ext rows cols); try assumption.
    intros i j c2 c0 H2 H0.
    destruct (cellAt_in_range _ _ _ _ _ _ Hwf H0) as [Hi Hj].
    assert (Ha : alive c2 = alive c0).
    { rewrite <- (aliveAt_cell _ _ _ _ H2), <- (aliveAt_cell _ _ _ _ H0).
      rewrite Hg2, Hg by assumption. reflexivity. }
    pose proof (cellAt_nextGrid rows cols _ _ _ _ H0) as H1. fold g1 in H1.
    pose proof (cellAt_nextGrid rows cols _ _ _ _ H1) as H2'. fold g2 in H2'.
    rewrite H2 in H2'. injection H2' as ->.
    destruct c0 as [a0 o0]. cbn in Ha |- *. unfold nextCell in *. cbn in *.
    rewrite Ha. reflexivity. }
  exists g1, g2.
  split; [apply next_spec; assumption|].
  split; [exact Hg1|].
  split; [apply next_spec; assumption|].
  split; [rewrite Heq; reflexivity | exact Heq].
Qed.

Lemma seamLine4_hline (i j : Z) :
  0 <= i < 4 -> 0 <= j < 4 -> aliveAt seamLine4 i j = hline 4 4 0 0 i j.
Proof.
  intros Hi Hj.
  assert (Ei : i = 0 \/ i = 1 \/ i = 2 \/ i = 3) by lia.
  assert (Ej : j = 0 \/ j = 1 \/ j = 2 \/ j = 3) by lia.
  destruct Ei as [-> | [-> | [-> | ->]]];
    destruct Ej as [-> | [-> | [-> | ->]]]; reflexivity.
Qed.

Lemma blinker_period_two_witness :
  exists g1 g2,
    next 4 4 seamLine4 = Ok g1 /\
    (forall i j, 0 <= i < 4 -> 0 <= j < 4 ->
                 aliveAt g1 i j = vline 4 4 0 0 i j) /\
    next 4 4 g1 = Ok g2 /\
    List.map (List.map alive) g2 = List.map (List.map alive) seamLine4 /\
    g2 = seamLine4.
Proof.
  apply (blinker_period_two 4 4 0 0 seamLine4); try lia.
  - split; [reflexivity | repeat constructor].
  - apply seamLine4_hline.
Defined.

(** ** The whole frame *)

Lemma wf_faded (rows cols : Z) (grid : Grid) :
  wf rows cols grid -> wf rows cols (List.map (List.map faded) grid).
Proof.
  intros [Hrows Hall]. split.
  - rewrite length_map. exact Hrows.
  - apply Forall_map. eapply Forall_impl; [exact Hall|].
    intros row Hrow. cbn. rewrite length_map. exact Hrow.
Qed.

Lemma cellAt_faded (grid : Grid) (i j : Z) (cell' : Cell) :
  cellAt (List.map (List.map faded) grid) (Js.Int i) (Js.Int j) = Ok cell' <->
  exists cell, cellAt grid (Js.Int i) (Js.Int j) = Ok cell /\ cell' = faded cell.
Proof.
  rewrite cellAt_Ok. split.
  - intros (row' & [Hi Hr] & [Hj Hc]).
    change (List.map (List.map faded) grid) with (List.map faded <$> grid) in Hr.
    apply list_lookup_fmap_Some in Hr as (row & -> & Hr).
    change (List.map faded row) with (faded <$> row) in Hc.
    apply list_lookup_fmap_Some in Hc as (cell & -> & Hc).
    exists cell. split; [|reflexivity].
    apply cellAt_Ok. exists row. auto.
  - intros (cell & H & ->). apply cellAt_Ok in H as (row & [Hi Hr] & [Hj Hc]).
    exists (List.map faded row). split; (split; [assumption|]).
    + change (List.map (List.map faded) grid) with (List.map faded <$> grid).
      rewrite list_lookup_fmap, Hr. reflexivity.
    + change (List.map faded row) with (faded <$> row).
      rewrite list_lookup_fmap, Hc. reflexivity.
Qed.

(** [draw] on a well-formed grid: every cell is faded, the visible ones
    are painted in the order of the loops, and the next generation is
    computed from the faded grid. *)
Lemma draw_spec (rows cols : Z) (grid : Grid) :
  wf rows cols grid ->
  draw rows cols grid =
  Ok (nextGrid rows cols (List.map (List.map faded) grid),
      Clear :: List.map toDot (renderSnapshot (List.map (List.map faded) grid))).
Proof.
  intros Hwf. unfold draw. rewrite paint_spec by assumption.
  cbn [mbind result_bind]. rewrite next_spec by (apply wf_faded; assumption).
  reflexivity.
Qed.




(** ** The render snapshot *)

Lemma elem_rowSnapshot (i j : Z) (row : list Cell) (rec : Z * Z * float) :
  rec ∈ rowSnapshot i j row <->
  exists k cell, row !! k = Some cell /\
                 rec = (i, j + Z.of_nat k, opacity cell) /\
                 (0 <? opacity cell)%float = true.
Proof.
  revert j. induction row as [|cell row IH]; intros j; cbn [rowSnapshot].
  - split.
    + intros H. apply elem_of_nil in H. destruct H.
    + intros (k & c & Hk & _). destruct k; discriminate.
  - rewrite elem_of_app, IH. split.
    + intros [H | (k & c & Hk & -> & Hv)].
      * destruct (0 <? opacity cell)%float eqn:Hv.
        -- apply list_elem_of_singleton in H as ->.
           exists 0%nat, cell. rewrite Z.add_0_r. auto.
        -- apply elem_of_nil in H. destruct H.
      * exists (S k), c. repeat split; auto. f_equal. f_equal. lia.
    + intros (k & c & Hk & -> & Hv). destruct k as [|k].
      * injection Hk as ->. left. rewrite Hv, Z.add_0_r.
        apply list_elem_of_singleton. reflexivity.
      * right. exists k, c. repeat split; auto. f_equal. f_equal. lia.
Qed.

Lemma elem_gridSnapshot (i : Z) (grid : Grid) (rec : Z * Z * float) :
  rec ∈ gridSnapshot i grid <->
  exists k row, grid !! k = Some row /\
                rec ∈ rowSnapshot (i + Z.of_nat k) 0 row.
Proof.
  revert i. induction grid as [|row grid IH]; intros i; cbn [gridSnapshot].
  - split.
    + intros H. apply elem_of_nil in H. destruct H.
    + intros (k & r & Hk & _). destruct k; discriminate.
  - rewrite elem_of_app, IH. split.
    + intros [H | (k & r & Hk & H)].
      * exists 0%nat, row. rewrite Z.add_0_r. auto.
      * exists (S k), r. split; [exact Hk|].
        replace (i + Z.of_nat (S k)) with (i + 1 + Z.of_nat k) by lia. exact H.
    + intros (k & r & Hk & H). destruct k as [|k].
      * injection Hk as ->. left. rewrite Z.add_0_r in H. exact H.
      * right. exists k, r. split; [exact Hk|].
        replace (i + 1 + Z.of_nat k) with (i + Z.of_nat (S k)) by lia. exact H.
Qed.

Lemma elem_renderSnapshot (grid : Grid) (i j : Z) (o : float) :
  (i, j, o) ∈ renderSnapshot grid <->
  exists cell, cellAt grid (Js.Int i) (Js.Int j) = Ok cell /\
               o = opacity cell /\ (0 <? o)%float = true.
Proof.
  unfold renderSnapshot. rewrite elem_gridSnapshot. split.
  - intros (k & row & Hk & H).
    apply elem_rowSnapshot in H as (k' & cell & Hk' & [= -> -> ->] & Hv).
    exists cell. split; [|auto].
    rewrite !Z.add_0_l. eapply cellAt_lookup; eauto.
  - intros (cell & H & -> & Hv).
    apply cellAt_Ok in H as (row & [Hi Hr] & [Hj Hc]).
    exists (Z.to_nat i), row. split; [exact Hr|].
    apply elem_rowSnapshot. exists (Z.to_nat j), cell.
    split; [exact Hc|]. split; [|exact Hv].
    f_equal. f_equal; lia.
Qed.

Lemma rowSnapshot_sorted (i j : Z) (row : list Cell) :
  StronglySorted rowMajor (rowSnapshot i j row).
Proof.
  revert j. induction row as [|cell row IH]; intros j; cbn [rowSnapshot].
  - constructor.
  - apply StronglySorted_app_2; [| |apply IH].
    + intros x1 x2 H1 H2.
      apply elem_rowSnapshot in H2 as (k & c & _ & -> & _).
      destruct (0 <? opacity cell)%float.
      * apply list_elem_of_singleton in H1 as ->. cbn. right. lia.
      * apply elem_of_nil in H1. destruct H1.
    + destruct (0 <? opacity cell)%float; repeat constructor.
Qed.

Lemma gridSnapshot_sorted (i : Z) (grid : Grid) :
  StronglySorted rowMajor (gridSnapshot i grid).
Proof.
  revert i. induction grid as [|row grid IH]; intros i; cbn [gridSnapshot].
  - constructor.
  - apply StronglySorted_app_2; [|apply rowSnapshot_sorted|apply IH].
    intros x1 x2 H1 H2.
    apply elem_rowSnapshot in H1 as (k1 & c1 & _ & -> & _).
    apply elem_gridSnapshot in H2 as (k & r & _ & H2).
    apply elem_rowSnapshot in H2 as (k2 & c2 & _ & -> & _).
    cbn. left. lia.
Qed.

(** A double that passes the test [o > 0] is not equal to zero. *)
Lemma positive_not_zero (o : float) :
  (0 <? o)%float = true -> (o =? 0)%float = false.
Proof.
  rewrite FloatAxioms.ltb_spec, FloatAxioms.eqb_spec.
  change (Prim2SF 0) with (S754_zero false).
  destruct (Prim2SF o) as [s | s | | s m e]; cbn; try discriminate.
  - destruct s; [discriminate | reflexivity].
  - destruct s; [discriminate | reflexivity].
Qed.

(** C9. On every well-formed grid a frame paints, after clearing, exactly
    the render snapshot of the faded grid: a record [(i, j, o)] is in it if
    and only if the grid has a cell at [(i, j)] whose opacity after the
    update is [o] and [o > 0]; no record has an opacity equal to zero. *)
Theorem draw_snapshot_visible (rows cols : Z) (grid : Grid) :
  wf rows cols grid ->
  exists grid' snapshot,
    draw rows cols grid = Ok (grid', Clear :: List.map toDot snapshot) /\
    snapshot = renderSnapshot (List.map (List.map faded) grid) /\
    (forall i j o,
       In (i, j, o) snapshot <->
       exists cell, cellAt grid (Js.Int i) (Js.Int j) = Ok cell /\
                    o = fade cell /\ (0 <? o)%float = true) /\
    (forall i j o, In (i, j, o) snapshot -> (o =? 0)%float = false).
Proof.
  intros Hwf.
  assert (Hin : forall i j o,
             In (i, j, o) (renderSnapshot (List.map (List.map faded) grid)) <->
             exists cell, cellAt grid (Js.Int i) (Js.Int j) = Ok cell /\
                          o = fade cell /\ (0 <? o)%float = true).
  { intros i j o. rewrite <- list_elem_of_In, elem_renderSnapshot. split.
    - intros (cell' & H & -> & Hv).
      apply cellAt_faded in H as (cell & H & ->). exists cell. auto.
    - intros (cell & H & -> & Hv). exists (faded cell).
      split; [|auto]. apply cellAt_faded. exists cell. auto. }
  exists (nextGrid rows cols (List.map (List.map faded) grid)),
         (renderSnapshot (List.map (List.map faded) grid)).
  split; [apply draw_spec; assumption|].
  split; [reflexivity|]. split; [exact Hin|].
  intros i j o H. apply Hin in H as (cell & _ & _ & Hv).
  apply positive_not_zero. exact Hv.
Qed.

Lemma draw_snapshot_visible_witness :
  exists grid' snapshot,
    draw 5 5 blinker5 = Ok (grid', Clear :: List.map toDot snapshot) /\
    snapshot = renderSnapshot (List.map (List.map faded) blinker5) /\
    (forall i j o,
       In (i, j, o) snapshot <->
       exists cell, cellAt blinker5 (Js.Int i) (Js.Int j) = Ok cell /\
                    o = fade cell /\ (0 <? o)%float = true) /\
    (forall i j o, In (i, j, o) snapshot -> (o =? 0)%float = false).
Proof. exact (draw_snapshot_visible 5 5 blinker5 wf_blinker5). Defined.

Lemma toDot_monotone (a b : Z * Z * float) :
  rowMajor a b -> dotOrder (toDot a) (toDot b).
Proof.
  destruct a as [[i1 j1] o1], b as [[i2 j2] o2].
  unfold rowMajor, toDot, dotOrder, cellSize. lia.
Qed.

(** C10. On every well-formed grid the records a frame paints are in
    strict row-major order: sorted by row index and, within a row, by
    column index (so no cell is painted twice), and the dots appear on the
    canvas in that order; the painted sequence is a function of the grid
    alone. *)
Theorem draw_snapshot_row_major (rows cols : Z) (grid : Grid) :
  wf rows cols grid ->
  exists grid' snapshot,
    draw rows cols grid = Ok (grid', Clear :: List.map toDot snapshot) /\
    snapshot = renderSnapshot (List.map (List.map faded) grid) /\
    StronglySorted rowMajor snapshot /\
    StronglySorted dotOrder (List.map toDot snapshot).
Proof.
  intros Hwf.
  exists (nextGrid rows cols (List.map (List.map faded) grid)),
         (renderSnapshot (List.map (List.map faded) grid)).
  split; [apply draw_spec; assumption|].
  split; [reflexivity|].
  assert (Hs : StronglySorted rowMajor
                 (renderSnapshot (List.map (List.map faded) grid)))
    by apply gridSnapshot_sorted.
  split; [exact Hs|].
  apply (StronglySorted_fmap toDot rowMajor dotOrder); [|exact Hs].
  intros a b. apply toDot_monotone.
Qed.

Lemma draw_snapshot_row_major_witness :
  exists grid' snapshot,
    draw 5 5 blinker5 = Ok (grid', Clear :: List.map toDot snapshot) /\
    snapshot = renderSnapshot (List.map (List.map faded) blinker5) /\
    StronglySorted rowMajor snapshot /\
    StronglySorted dotOrder (List.map toDot snapshot).
Proof. exact (draw_snapshot_row_major 5 5 blinker5 wf_blinker5). Defined.

(** ** Opacity of a cell whose alive flag is held fixed *)

Lemma held_alive_from_3 (n : nat) : held true 0%float (3 + n) = 0.5%float.
Proof.
  induction n as [|n IH].
  - vm_compute. reflexivity.
  - replace (3 + S n)%nat with (S (3 + n)) by lia.
    cbn [held]. rewrite IH. vm_compute. reflexivity.
Qed.

Lemma held_dead_from_3 (n : nat) : held false 0.5%float (3 + n) = 0%float.
Proof.
  induction n as [|n IH].
  - vm_compute. reflexivity.
  - replace (3 + S n)%nat with (S (3 + n)) by lia.
    cbn [held]. rewrite IH. vm_compute. reflexivity.
Qed.

Lemma wf_map_cells (f : Cell -> Cell) (rows cols : Z) (grid : Grid) :
  wf rows cols grid -> wf rows cols (List.map (List.map f) grid).
Proof.
  intros [Hrows Hall]. split.
  - rewrite length_map. exact Hrows.
  - apply Forall_map. eapply Forall_impl; [exact Hall|].
    intros row Hrow. cbn. rewrite length_map. exact Hrow.
Qed.

Lemma cellAt_map_cells (f : Cell -> Cell) (grid : Grid) (i j : Z) (cell : Cell) :
  cellAt grid (Js.Int i) (Js.Int j) = Ok cell ->
  cellAt (List.map (List.map f) grid) (Js.Int i) (Js.Int j) = Ok (f cell).
Proof.
  intros H. apply cellAt_Ok in H as (row & [Hi Hr] & [Hj Hc]).
  apply cellAt_Ok. exists (List.map f row). split; (split; [assumption|]).
  - change (List.map (List.map f) grid) with (List.map f <$> grid).
    rewrite list_lookup_fmap, Hr. reflexivity.
  - change (List.map f row) with (f <$> row).
    rewrite list_lookup_fmap, Hc. reflexivity.
Qed.

(** [n] runs of the paint loop apply the opacity update [n] times to
    every cell, and change nothing else. *)
Lemma paints_spec (rows cols : Z) (n : nat) (grid : Grid) :
  wf rows cols grid ->
  paints rows cols n grid = Ok (List.map (List.map (heldCell n)) grid).
Proof.
  intros Hwf. induction n as [|n IH].
  - cbn [paints]. f_equal. symmetry.
    erewrite List.map_ext; [apply List.map_id|]. intros row.
    erewrite List.map_ext; [apply List.map_id|]. intros [a o]. reflexivity.
  - cbn [paints]. rewrite IH. cbn [mbind result_bind].
    rewrite paint_spec by (apply wf_map_cells; exact Hwf).
    cbn [mbind result_bind]. f_equal.
    rewrite List.map_map. apply List.map_ext. intros row.
    rewrite List.map_map. apply List.map_ext. intros cell. reflexivity.
Qed.

Lemma aliveAt_map_cells (f : Cell -> Cell) (grid : Grid) (i j : Z) :
  (forall cell, alive (f cell) = alive cell) ->
  aliveAt (List.map (List.map f) grid) i j = aliveAt grid i j.
Proof.
  intros Hf. unfold aliveAt at 2.
  destruct (cellAt grid (Js.Int i) (Js.Int j)) as [cell|e] eqn:H.
  - rewrite (aliveAt_cell _ _ _ _ (cellAt_map_cells f _ _ _ _ H)). apply Hf.
  - unfold aliveAt.
    destruct (cellAt (List.map (List.map f) grid) (Js.Int i) (Js.Int j))
      as [cell'|e'] eqn:H'; [|reflexivity].
    apply cellAt_Ok in H' as (row' & [Hi Hr] & [Hj Hc]).
    change (List.map (List.map f) grid) with (List.map f <$> grid) in Hr.
    apply list_lookup_fmap_Some in Hr as (row & -> & Hr).
    change (List.map f row) with (f <$> row) in Hc.
    apply list_lookup_fmap_Some in Hc as (cell & -> & Hc).
    assert (Hok : cellAt grid (Js.Int i) (Js.Int j) = Ok cell)
      by (apply cellAt_Ok; exists row; auto).
    congruence.
Qed.

Lemma liveNeighbors_flags (rows cols : Z) (g1 g2 : Grid) (x y : Z) :
  (forall i j, aliveAt g1 i j = aliveAt g2 i j) ->
  liveNeighbors rows cols g1 x y = liveNeighbors rows cols g2 x y.
Proof.
  intros H. unfold liveNeighbors. f_equal. apply List.map_ext.
  intros d. rewrite H. reflexivity.
Qed.

(** When the life rule changes no alive flag of a grid, whole frames act
    on it as the opacity update alone does. *)
Lemma ticks_spec (rows cols : Z) (n : nat) (grid : Grid) :
  wf rows cols grid ->
  (forall i j, 0 <= i < rows -> 0 <= j < cols ->
               aliveAt (nextGrid rows cols grid) i j = aliveAt grid i j) ->
  ticks rows cols n grid = Ok (List.map (List.map (heldCell n)) grid).
Proof.
  intros Hwf Hstable. induction n as [|n IH].
  - cbn [ticks]. f_equal. symmetry.
    erewrite List.map_ext; [apply List.map_id|]. intros row.
    erewrite List.map_ext; [apply List.map_id|]. intros [a o]. reflexivity.
  - cbn [ticks]. rewrite IH. cbn [mbind result_bind].
    unfold draw. rewrite paint_spec by (apply wf_map_cells; exact Hwf).
    cbn [mbind result_bind].
    assert (Hmap : List.map (List.map faded)
                     (List.map (List.map (heldCell n)) grid) =
                   List.map (List.map (heldCell (S n))) grid).
    { rewrite List.map_map. apply List.map_ext. intros row.
      rewrite List.map_map. apply List.map_ext. intros cell. reflexivity. }
    rewrite Hmap.
    rewrite next_fixed; [reflexivity | apply wf_map_cells; exact Hwf |].
    intros i j Hi Hj.
    rewrite (aliveAt_nextGrid rows cols)
      by (try apply wf_map_cells; assumption).
    rewrite (liveNeighbors_flags rows cols _ grid)
      by (intros; apply aliveAt_map_cells; reflexivity).
    rewrite aliveAt_map_cells by reflexivity.
    rewrite <- (Hstable i j Hi Hj).
    rewrite (aliveAt_nextGrid rows cols) by assumption.
    unfold willBeAlive. rewrite !alive_cellOr.
    rewrite aliveAt_map_cells by reflexivity. reflexivity.
Qed.

(** C5. With [transitionSpeed = 0.2], take any cell of a well-formed
    grid and run the opacity update of [draw] again and again with the
    alive flags held: the cell's opacities form a sequence [o] that starts
    at the cell's opacity, and when the life rule itself holds every alive
    flag of the grid, whole frames give the same sequence. If the cell is
    alive and starts at opacity 0 the sequence is non-decreasing, never
    exceeds 0.5 and is exactly 0.5 from the third update on; if the cell
    is dead and starts at 0.5 it is non-increasing, never below 0 and
    exactly 0 from the third update on. *)
Theorem fade_converges (rows cols : Z) (grid : Grid) (i j : Z) (cell : Cell) :
  wf rows cols grid -> cellAt grid (Js.Int i) (Js.Int j) = Ok cell ->
  transitionSpeed = 0.2%float /\
  exists o : nat -> float,
    o O = opacity cell /\
    (forall n, exists gridn celln,
        paints rows cols n grid = Ok gridn /\
        cellAt gridn (Js.Int i) (Js.Int j) = Ok celln /\
        alive celln = alive cell /\ opacity celln = o n) /\
    ((exists grid',
         next rows cols grid = Ok grid' /\
         forall i' j', aliveAt grid' i' j' = aliveAt grid i' j') ->
     forall n, exists gridn celln,
        ticks rows cols n grid = Ok gridn /\
        cellAt gridn (Js.Int i) (Js.Int j) = Ok celln /\
        alive celln = alive cell /\ opacity celln = o n) /\
    (alive cell = true -> opacity cell = 0%float ->
     (forall n, (o n <=? o (S n))%float = true) /\
     (forall n, (o n <=? 0.5)%float = true) /\
     (forall n, (3 <= n)%nat -> o n = 0.5%float)) /\
    (alive cell = false -> opacity cell = 0.5%float ->
     (forall n, (o (S n) <=? o n)%float = true) /\
     (forall n, (0 <=? o n)%float = true) /\
     (forall n, (3 <= n)%nat -> o n = 0%float)).
Proof.
  intros Hwf Hcell. split; [reflexivity|].
  exists (held (alive cell) (opacity cell)).
  split; [reflexivity|]. split.
  { intros n. exists (List.map (List.map (heldCell n)) grid), (heldCell n cell).
    split; [apply paints_spec; exact Hwf|].
    split; [apply cellAt_map_cells; exact Hcell|].
    split; reflexivity. }
  split.
  { intros (grid' & Hnext & Hsame) n.
    rewrite next_spec in Hnext by exact Hwf. injection Hnext as <-.
    exists (List.map (List.map (heldCell n)) grid), (heldCell n cell).
    split; [apply ticks_spec; [exact Hwf | intros; apply Hsame]|].
    split; [apply cellAt_map_cells; exact Hcell|].
    split; reflexivity. }
  assert (Hup : forall n, (3 <= n)%nat -> held true 0 n = 0.5%float).
  { intros n Hn. replace n with (3 + (n - 3))%nat by lia.
    apply held_alive_from_3. }
  assert (Hdown : forall n, (3 <= n)%nat -> held false 0.5 n = 0%float).
  { intros n Hn. replace n with (3 + (n - 3))%nat by lia.
    apply held_dead_from_3. }
  split.
  - intros -> ->. split; [|split; [|exact Hup]].
    + intros [|[|[|n]]]; try (vm_compute; reflexivity).
      rewrite !Hup by lia. vm_compute. reflexivity.
    + intros [|[|[|n]]]; try (vm_compute; reflexivity).
      rewrite !Hup by lia. vm_compute. reflexivity.
  - intros -> ->. split; [|split; [|exact Hdown]].
    + intros [|[|[|n]]]; try (vm_compute; reflexivity).
      rewrite !Hdown by lia. vm_compute. reflexivity.
    + intros [|[|[|n]]]; try (vm_compute; reflexivity).
      rewrite !Hdown by lia. vm_compute. reflexivity.
Qed.

Lemma fade_converges_witness :
  transitionSpeed = 0.2%float /\
  exists o : nat -> float,
    o O = opacity (mkCell true 0%float) /\
    (forall n, exists gridn celln,
        paints 1 2 n fading2 = Ok gridn /\
        cellAt gridn (Js.Int 0) (Js.Int 0) = Ok celln /\
        alive celln = alive (mkCell true 0%float) /\ opacity celln = o n) /\
    ((exists grid',
         next 1 2 fading2 = Ok grid' /\
         forall i' j', aliveAt grid' i' j' = aliveAt fading2 i' j') ->
     forall n, exists gridn celln,
        ticks 1 2 n fading2 = Ok gridn /\
        cellAt gridn (Js.Int 0) (Js.Int 0) = Ok celln /\
        alive celln = alive (mkCell true 0%float) /\ opacity celln = o n) /\
    (alive (mkCell true 0%float) = true ->
     opacity (mkCell true 0%float) = 0%float ->
     (forall n, (o n <=? o (S n))%float = true) /\
     (forall n, (o n <=? 0.5)%float = true) /\
     (forall n, (3 <= n)%nat -> o n = 0.5%float)) /\
    (alive (mkCell true 0%float) = false ->
     opacity (mkCell true 0%float) = 0.5%float ->
     (forall n, (o (S n) <=? o n)%float = true) /\
     (forall n, (0 <=? o n)%float = true) /\
     (forall n, (3 <= n)%nat -> o n = 0%float)).
Proof.
  apply (fade_converges 1 2 fading2 0 0 (mkCell true 0%float)).
  - split; [reflexivity | repeat constructor].
  - reflexivity.
Defined.

(** ** Initialisation of the grid *)


Lemma Array_ok (n : Z) : 0 <= n < 2 ^ 32 -> Js.Array n = Ok (Z.to_nat n).
Proof.
  intros Hn. unfold Js.Array.
  destruct (Z.leb_spec 0 n); [|lia].
  destruct (Z.ltb_spec n (2 ^ 32)); [reflexivity | lia].
Qed.



(** C3 (what the code does). With draws 0.9, 0.1 the single cell of a
    1 x 1 grid is created alive with opacity 0, and with draws 0.1, 0.9
    it is created dead with opacity 0.5: the alive flag and the opacity
    come from two separate draws and need not match. *)
Theorem initGrid_opacity_mismatch :
  initGrid alternating 1 1 0 = Ok ([[mkCell true 0%float]], 2%nat) /\
  initGrid alternating 1 1 1 = Ok ([[mkCell false 0.5%float]], 3%nat).
Proof. split; vm_compute; reflexivity. Qed.

(** ** Facts about the effect *)

Lemma callDraw_wf (rt : Runtime) :
  wf (rows rt) (cols rt) (grid rt) ->
  callDraw rt =
  Ok (mkRuntime (rows rt) (cols rt)
        (nextGrid (rows rt) (cols rt) (List.map (List.map faded) (grid rt)))
        (animationFrameId rt) (S (timeouts rt)) (frames rt) (nextHandle rt)
        (painted rt ++
         [Clear :: List.map toDot
                     (renderSnapshot (List.map (List.map faded) (grid rt)))])).
Proof. intros Hwf. unfold callDraw. rewrite draw_spec by assumption. reflexivity. Qed.

Lemma dimension_range (pixels : Z) :
  0 <= pixels < 2 ^ 32 -> 0 <= pixels / cellSize < 2 ^ 32.
Proof.
  intros Hp. unfold cellSize. split.
  - apply Z.div_pos; lia.
  - apply Z.div_lt_upper_bound; lia.
Qed.




(** The cleanup cancels a pending animation frame: when it runs between
    the timeout and the frame, nothing can fire afterwards. *)
Lemma cleanup_cancels_pending_frame (rt rt' : Runtime) (handle : nat) (e : Event) :
  timeouts rt = 0%nat -> frames rt = [handle] ->
  animationFrameId rt = Some handle ->
  fire Cleanup rt = Some rt' -> e <> Cleanup -> fire e rt' = None.
Proof.
  intros Ht Hf Ha Hc He. cbn in Hc. injection Hc as <-.
  rewrite Ha, Hf. cbn [List.filter]. rewrite Nat.eqb_refl. cbn [negb].
  destruct e as [| h |]; cbn.
  - rewrite Ht. reflexivity.
  - rewrite bool_decide_eq_false_2; [reflexivity|]. apply not_elem_of_nil.
  - contradiction.
Qed.

(** The cleanup does not clear a pending timeout: when it runs during the
    delay, the timeout still fires, requests a frame, and [draw] runs
    again and schedules the next timeout. *)
Lemma cleanup_misses_pending_timeout (rt : Runtime) :
  wf (rows rt) (cols rt) (grid rt) -> (1 <= timeouts rt)%nat ->
  exists rt',
    run [Cleanup; TimeoutFires; FrameFires (nextHandle rt)] rt = Some rt' /\
    length (painted rt') = S (length (painted rt)) /\
    (1 <= timeouts rt')%nat.
Proof.
  intros Hwf Ht. cbn [run fire].
  destruct (timeouts rt) as [|pending] eqn:Hpending; [lia|].
  cbn [timeouts frames nextHandle rows cols grid animationFrameId painted].
  rewrite bool_decide_eq_true_2 by (apply elem_of_app; right; apply list_elem_of_singleton; reflexivity).
  rewrite callDraw_wf by exact Hwf.
  eexists. split; [reflexivity|]. cbn. rewrite length_app. cbn. lia.
Qed.

(** C7 (what the code does). After mounting a 30 x 30 canvas whose
    draws give the blinker, the timeout of the first frame is pending;
    if the cleanup runs now, the timeout still fires and the requested
    frame runs [draw]: a second frame is painted, the grid moves on a
    generation, and another timeout is pending. *)
Theorem cleanup_during_delay_keeps_ticking :
  exists rt0 rt1,
    mount blinkerDraws 30 30 = Ok rt0 /\
    timeouts rt0 = 1%nat /\ length (painted rt0) = 1%nat /\
    run [Cleanup; TimeoutFires; FrameFires 1] rt0 = Some rt1 /\
    length (painted rt1) = 2%nat /\
    grid rt1 <> grid rt0 /\
    timeouts rt1 = 1%nat.
Proof.
  eexists. eexists.
  split; [vm_compute; reflexivity|].
  split; [reflexivity|]. split; [reflexivity|].
  split; [vm_compute; reflexivity|].
  split; [reflexivity|]. split; [|reflexivity].
  cbn [grid]. discriminate.
Qed.

(** ** Errors and geometry of [countNeighbors] *)

Lemma cellAt_throws (grid : Grid) (row col : Js.num) (e : JsError) :
  cellAt grid row col = Throw e -> e = TypeError.
Proof.
  unfold cellAt. destruct (Js.get grid row) as [r|]; [|congruence].
  destruct (Js.get r col); congruence.
Qed.

Lemma loop_throws {S} (body : Z -> S -> result S) :
  (forall i s e, body i s = Throw e -> e = TypeError) ->
  forall n i s e, Js.loop n i body s = Throw e -> e = TypeError.
Proof.
  intros Hbody n. induction n as [|n IH]; intros i s e H; [discriminate|].
  cbn [Js.loop] in H. destruct (body i s) as [s'|e'] eqn:Hb.
  - cbn [mbind result_bind] in H. eauto.
  - cbn [mbind result_bind] in H. injection H as <-. eauto.
Qed.

Lemma countNeighbors_throws (rows cols : Z) (grid : Grid) (x y : Z) (e : JsError) :
  countNeighbors rows cols grid x y = Throw e -> e = TypeError.
Proof.
  unfold countNeighbors, Js.for_. intros H.
  match type of H with
  | mbind _ ?m = _ => destruct m as [sum|e'] eqn:Hsum
  end.
  - cbn [mbind result_bind] in H.
    destruct (cellAt grid (Js.Int x) (Js.Int y)) as [self|e'] eqn:Hself.
    + discriminate.
    + cbn [mbind result_bind] in H. injection H as <-.
      eapply cellAt_throws; eauto.
  - cbn [mbind result_bind] in H. injection H as <-.
    revert Hsum. apply loop_throws. intros i s e1.
    apply loop_throws. intros j s' e2 Hb.
    destruct (cellAt grid (Js.rem (x + i + rows) rows)
                     (Js.rem (y + j + cols) cols)) as [cell|e3] eqn:Hc.
    + discriminate.
    + cbn [mbind result_bind] in Hb. injection Hb as <-.
      eapply cellAt_throws; eauto.
Qed.

Lemma countNeighbors_Ok_in_range (rows cols : Z) (grid : Grid) (x y n : Z) :
  wf rows cols grid -> countNeighbors rows cols grid x y = Ok n ->
  0 <= x < rows /\ 0 <= y < cols.
Proof.
  intros Hwf H. unfold countNeighbors in H.
  match type of H with
  | mbind _ ?m = _ => destruct m as [sum|e'] eqn:Hsum; [|discriminate]
  end.
  cbn [mbind result_bind] in H.
  destruct (cellAt grid (Js.Int x) (Js.Int y)) as [self|e'] eqn:Hself;
    [|discriminate].
  eapply cellAt_in_range; eauto.
Qed.

(** X1. On a well-formed grid [countNeighbors] returns a count exactly at
    the coordinates of the grid; at every other coordinate, negative or
    too large, it throws a TypeError (and no other exception). *)
Theorem countNeighbors_outside (rows cols : Z) (grid : Grid) (x y : Z) :
  wf rows cols grid ->
  (0 <= x < rows /\ 0 <= y < cols ->
   countNeighbors rows cols grid x y = Ok (liveNeighbors rows cols grid x y)) /\
  (~ (0 <= x < rows /\ 0 <= y < cols) ->
   countNeighbors rows cols grid x y = Throw TypeError).
Proof.
  intros Hwf. split.
  - intros [Hx Hy]. apply countNeighbors_liveNeighbors; assumption.
  - intros Hout.
    destruct (countNeighbors rows cols grid x y) as [n|e] eqn:H.
    + destruct Hout. eapply countNeighbors_Ok_in_range; eauto.
    + f_equal. eapply countNeighbors_throws; eauto.
Qed.

Lemma countNeighbors_outside_witness :
  countNeighbors 5 5 blinker5 5 0 = Throw TypeError /\
  countNeighbors 5 5 blinker5 (-1) 2 = Throw TypeError.
Proof.
  split.
  - apply (proj2 (countNeighbors_outside 5 5 blinker5 5 0 wf_blinker5)). lia.
  - apply (proj2 (countNeighbors_outside 5 5 blinker5 (-1) 2 wf_blinker5)). lia.
Defined.

Lemma sumZ_b2z_filter {A} (f : A -> bool) (l : list A) :
  sumZ (List.map (fun p => b2z (f p)) l) = Z.of_nat (length (List.filter f l)).
Proof.
  induction l as [|p l IH]; [reflexivity|].
  cbn [List.map sumZ fold_right List.filter].
  fold (sumZ (List.map (fun p => b2z (f p)) l)). rewrite IH.
  destruct (f p); cbn [b2z length]; lia.
Qed.

(** The count [countNeighbors] returns is the number of entries of
    [neighborPositions] that hold a live cell: these are the positions it
    reads, one entry per read. *)
Lemma countNeighbors_positions (rows cols : Z) (grid : Grid) (x y : Z) :
  wf rows cols grid -> 0 <= x < rows -> 0 <= y < cols ->
  countNeighbors rows cols grid x y =
  Ok (Z.of_nat (length (List.filter (fun p => aliveAt grid (fst p) (snd p))
                                    (neighborPositions rows cols x y)))).
Proof.
  intros Hwf Hx Hy. rewrite countNeighbors_liveNeighbors by assumption.
  f_equal. unfold liveNeighbors, neighborPositions.
  rewrite <- sumZ_b2z_filter, List.map_map. reflexivity.
Qed.

Lemma count3_point_sym (n a b : Z) :
  0 <= a < n -> 0 <= b < n ->
  count3 (point a) n b = count3 (point b) n a.
Proof.
  intros Ha Hb. unfold count3, point.
  rewrite !(eqb_wrap n b a) by lia.
  change (- (-1)) with 1. change (- 0) with 0. change (- (1)) with (-1).
  rewrite (Z.eqb_sym b (wrap a 1 n)), (Z.eqb_sym b (wrap a 0 n)),
    (Z.eqb_sym b (wrap a (-1) n)).
  lia.
Qed.

(** X2. Being a neighbour is symmetric on the torus, with multiplicity
    and for any dimensions: on well-formed grids, [countNeighbors] at
    [(x, y)] on a grid whose only live cell is [(px, py)] returns the same
    number as [countNeighbors] at [(px, py)] on a grid whose only live
    cell is [(x, y)]. *)
Theorem neighbor_symmetric (rows cols : Z) (g g' : Grid) (x y px py : Z) :
  wf rows cols g -> wf rows cols g' ->
  0 <= x < rows -> 0 <= y < cols -> 0 <= px < rows -> 0 <= py < cols ->
  (forall i j, 0 <= i < rows -> 0 <= j < cols ->
               aliveAt g i j = point px i && point py j) ->
  (forall i j, 0 <= i < rows -> 0 <= j < cols ->
               aliveAt g' i j = point x i && point y j) ->
  exists n,
    countNeighbors rows cols g x y = Ok n /\
    countNeighbors rows cols g' px py = Ok n.
Proof.
  intros Hwf Hwf' Hx Hy Hpx Hpy Hg Hg'.
  exists (liveNeighbors rows cols g x y).
  split; [apply countNeighbors_liveNeighbors; assumption|].
  rewrite countNeighbors_liveNeighbors by assumption. f_equal.
  rewrite (liveNeighbors_product rows cols g (point px) (point py))
    by assumption.
  rewrite (liveNeighbors_product rows cols g' (point x) (point y))
    by assumption.
  rewrite (count3_point_sym rows x px), (count3_point_sym cols y py)
    by assumption.
  unfold point. rewrite (Z.eqb_sym px x), (Z.eqb_sym py y). reflexivity.
Qed.

Lemma lone3a_lone (i j : Z) :
  0 <= i < 3 -> 0 <= j < 3 -> aliveAt lone3a i j = point 0 i && point 0 j.
Proof.
  intros Hi Hj.
  assert (Ei : i = 0 \/ i = 1 \/ i = 2) by lia.
  assert (Ej : j = 0 \/ j = 1 \/ j = 2) by lia.
  destruct Ei as [-> | [-> | ->]]; destruct Ej as [-> | [-> | ->]];
    reflexivity.
Qed.

Lemma lone3b_lone (i j : Z) :
  0 <= i < 3 -> 0 <= j < 3 -> aliveAt lone3b i j = point 2 i && point 2 j.
Proof.
  intros Hi Hj.
  assert (Ei : i = 0 \/ i = 1 \/ i = 2) by lia.
  assert (Ej : j = 0 \/ j = 1 \/ j = 2) by lia.
  destruct Ei as [-> | [-> | ->]]; destruct Ej as [-> | [-> | ->]];
    reflexivity.
Qed.

Lemma neighbor_symmetric_witness :
  exists n,
    countNeighbors 3 3 lone3a 2 2 = Ok n /\
    countNeighbors 3 3 lone3b 0 0 = Ok n.
Proof.
  apply (neighbor_symmetric 3 3 lone3a lone3b 2 2 0 0); try lia.
  - split; [reflexivity | repeat constructor].
  - split; [reflexivity | repeat constructor].
  - apply lone3a_lone.
  - apply lone3b_lone.
Defined.

(** X3. When both dimensions are at least 3, [countNeighbors] at an
    in-range coordinate of a well-formed grid returns the number of live
    cells among eight positions that are pairwise distinct and none of
    which is the coordinate itself: every cell is counted at most once and
    a cell is never its own neighbour. *)
Theorem neighbors_distinct (rows cols : Z) (grid : Grid) (x y : Z) :
  wf rows cols grid ->
  3 <= rows -> 3 <= cols -> 0 <= x < rows -> 0 <= y < cols ->
  countNeighbors rows cols grid x y =
  Ok (Z.of_nat (length (List.filter (fun p => aliveAt grid (fst p) (snd p))
                                    (neighborPositions rows cols x y)))) /\
  length (neighborPositions rows cols x y) = 8%nat /\
  List.NoDup (neighborPositions rows cols x y) /\
  ~ In (x, y) (neighborPositions rows cols x y).
Proof.
  intros Hwf Hrows Hcols Hx Hy.
  split; [apply countNeighbors_positions; assumption|].
  split; [reflexivity|].
  unfold neighborPositions, offsets.
  cbn [List.map fst snd].
  pose proof (wrap_0 x rows Hx) as Ex. pose proof (wrap_0 y cols Hy) as Ey.
  name_wraps rows x. name_wraps cols y.
  repeat match goal with H : _ /\ _ |- _ => destruct H end.
  split.
  - repeat constructor; cbn [In]; intros Hin;
      repeat destruct Hin as [Hin | Hin];
      first [ contradiction | injection Hin; intros; lia ].
  - cbn [In]. intros Hin.
    repeat destruct Hin as [Hin | Hin];
      first [ contradiction | injection Hin; intros; lia ].
Qed.

Lemma neighbors_distinct_witness :
  countNeighbors 5 5 blinker5 0 4 =
  Ok (Z.of_nat (length (List.filter (fun p => aliveAt blinker5 (fst p) (snd p))
                                    (neighborPositions 5 5 0 4)))) /\
  length (neighborPositions 5 5 0 4) = 8%nat /\
  List.NoDup (neighborPositions 5 5 0 4) /\
  ~ In (0, 4) (neighborPositions 5 5 0 4).
Proof. apply (neighbors_distinct 5 5 blinker5 0 4 wf_blinker5); lia. Defined.

(** ** Still lifes and extinction *)

Lemma generations_fixed (rows cols : Z) (grid : Grid) (n : nat) :
  next rows cols grid = Ok grid -> generations rows cols n grid = Ok grid.
Proof.
  intros Hfix. induction n as [|n IH]; [reflexivity|].
  cbn [generations]. rewrite Hfix. cbn [mbind result_bind]. exact IH.
Qed.

Lemma count3_pair (n c y : Z) :
  3 <= n -> 0 <= c <= n - 2 -> 0 <= y < n ->
  0 <= count3 (pair c) n y <= 2 /\
  (pair c y = true -> count3 (pair c) n y = 2).
Proof.
  intros Hn Hc Hy. unfold count3, pair.
  pose proof (wrap_0 y n Hy) as E0. name_wraps n y.
  case_cmp; cbn [b2z andb]; (split; [lia | intros; first [lia | discriminate]]).
Qed.

(** X4. The block is a still life: on a well-formed grid of at least
    3 x 3 cells whose live cells are exactly a 2 x 2 block (anywhere that
    does not straddle the wrap-around edge), the next generation is the
    same grid, and so is every later one. *)
Theorem block_still_life (rows cols r c : Z) (grid : Grid) :
  wf rows cols grid -> 3 <= rows -> 3 <= cols ->
  0 <= r <= rows - 2 -> 0 <= c <= cols - 2 ->
  (forall i j, 0 <= i < rows -> 0 <= j < cols ->
               aliveAt grid i j = block r c i j) ->
  next rows cols grid = Ok grid /\
  forall n, generations rows cols n grid = Ok grid.
Proof.
  intros Hwf Hrows Hcols Hr Hc Hg.
  assert (Hfix : next rows cols grid = Ok grid).
  { apply next_fixed; [assumption|]. intros i j Hi Hj.
    rewrite (aliveAt_nextGrid rows cols) by assumption.
    unfold willBeAlive. rewrite alive_cellOr.
    rewrite (liveNeighbors_product rows cols grid (pair r) (pair c))
      by assumption.
    rewrite Hg by assumption. unfold block.
    destruct (count3_pair rows r i Hrows Hr Hi) as [Ha Ha2].
    destruct (count3_pair cols c j Hcols Hc Hj) as [Hb Hb2].
    destruct (pair r i); destruct (pair c j); cbn [andb b2z].
    - rewrite Ha2, Hb2 by reflexivity. reflexivity.
    - assert (Ea : count3 (pair r) rows i = 0 \/ count3 (pair r) rows i = 1 \/
                   count3 (pair r) rows i = 2) by lia.
      destruct Ea as [-> | [-> | ->]]; case_cmp; lia.
    - assert (Ea : count3 (pair r) rows i = 0 \/ count3 (pair r) rows i = 1 \/
                   count3 (pair r) rows i = 2) by lia.
      destruct Ea as [-> | [-> | ->]]; case_cmp; lia.
    - assert (Ea : count3 (pair r) rows i = 0 \/ count3 (pair r) rows i = 1 \/
                   count3 (pair r) rows i = 2) by lia.
      destruct Ea as [-> | [-> | ->]]; case_cmp; lia. }
  split; [exact Hfix|]. intros n. apply generations_fixed. exact Hfix.
Qed.

Lemma block4_block (i j : Z) :
  0 <= i < 4 -> 0 <= j < 4 -> aliveAt block4 i j = block 1 1 i j.
Proof.
  intros Hi Hj.
  assert (Ei : i = 0 \/ i = 1 \/ i = 2 \/ i = 3) by lia.
  assert (Ej : j = 0 \/ j = 1 \/ j = 2 \/ j = 3) by lia.
  destruct Ei as [-> | [-> | [-> | ->]]];
    destruct Ej as [-> | [-> | [-> | ->]]]; reflexivity.
Qed.

Lemma block_still_life_witness :
  next 4 4 block4 = Ok block4 /\
  forall n, generations 4 4 n block4 = Ok block4.
Proof.
  apply (block_still_life 4 4 1 1 block4); try lia.
  - split; [reflexivity | repeat constructor].
  - apply block4_block.
Defined.

(** X5. Nothing is born on an empty grid: a well-formed grid of any
    dimensions (also with a single row or column) without a live cell is
    its own next generation, for ever. *)
Theorem dead_grid_stays_dead (rows cols : Z) (grid : Grid) :
  wf rows cols grid ->
  (forall i j, 0 <= i < rows -> 0 <= j < cols -> aliveAt grid i j = false) ->
  forall n, generations rows cols n grid = Ok grid.
Proof.
  intros Hwf Hdead n. apply generations_fixed. apply next_fixed; [assumption|].
  intros i j Hi Hj.
  rewrite (aliveAt_nextGrid rows cols) by assumption.
  unfold willBeAlive. rewrite alive_cellOr.
  rewrite (liveNeighbors_product rows cols grid (fun _ => false)
                                 (fun _ => false)) by assumption.
  rewrite Hdead by assumption. reflexivity.
Qed.

Lemma dead3_dead (i j : Z) :
  0 <= i < 3 -> 0 <= j < 3 -> aliveAt dead3 i j = false.
Proof.
  intros Hi Hj.
  assert (Ei : i = 0 \/ i = 1 \/ i = 2) by lia.
  assert (Ej : j = 0 \/ j = 1 \/ j = 2) by lia.
  destruct Ei as [-> | [-> | ->]]; destruct Ej as [-> | [-> | ->]];
    reflexivity.
Qed.

Lemma dead_grid_stays_dead_witness : generations 3 3 7 dead3 = Ok dead3.
Proof.
  apply (dead_grid_stays_dead 3 3 dead3).
  - split; [reflexivity | repeat constructor].
  - apply dead3_dead.
Defined.

(** X6. A grid filled with live cells dies out in one generation,
    whatever its dimensions: every cell has eight live neighbours (on a
    small torus the same cells several times), so the next generation has
    no live cell. *)
Theorem full_grid_dies (rows cols : Z) (grid : Grid) :
  wf rows cols grid ->
  (forall i j, 0 <= i < rows -> 0 <= j < cols -> aliveAt grid i j = true) ->
  exists grid',
    next rows cols grid = Ok grid' /\
    (forall i j, 0 <= i < rows -> 0 <= j < cols ->
                 countNeighbors rows cols grid i j = Ok 8) /\
    (forall i j, 0 <= i < rows -> 0 <= j < cols -> aliveAt grid' i j = false).
Proof.
  intros Hwf Hlive. exists (nextGrid rows cols grid).
  split; [apply next_spec; assumption|].
  assert (H8 : forall i j, 0 <= i < rows -> 0 <= j < cols ->
                           liveNeighbors rows cols grid i j = 8).
  { intros i j Hi Hj.
    rewrite (liveNeighbors_product rows cols grid (fun _ => true)
                                   (fun _ => true)) by assumption.
    reflexivity. }
  split.
  - intros i j Hi Hj. rewrite countNeighbors_liveNeighbors by assumption.
    rewrite H8 by assumption. reflexivity.
  - intros i j Hi Hj.
    rewrite (aliveAt_nextGrid rows cols) by assumption.
    rewrite H8 by assumption.
    unfold willBeAlive. rewrite alive_cellOr, Hlive by assumption. reflexivity.
Qed.

Lemma live2_live (i j : Z) :
  0 <= i < 2 -> 0 <= j < 2 -> aliveAt live2 i j = true.
Proof.
  intros Hi Hj.
  assert (Ei : i = 0 \/ i = 1) by lia. assert (Ej : j = 0 \/ j = 1) by lia.
  destruct Ei as [-> | ->]; destruct Ej as [-> | ->]; reflexivity.
Qed.

Lemma full_grid_dies_witness :
  exists grid',
    next 2 2 live2 = Ok grid' /\
    (forall i j, 0 <= i < 2 -> 0 <= j < 2 ->
                 countNeighbors 2 2 live2 i j = Ok 8) /\
    (forall i j, 0 <= i < 2 -> 0 <= j < 2 -> aliveAt grid' i j = false).
Proof.
  apply (full_grid_dies 2 2 live2).
  - split; [reflexivity | repeat constructor].
  - apply live2_live.
Defined.

(** ** What a frame paints, and where *)

(** X7. A frame paints inside the canvas: on a well-formed grid whose
    dimensions are the canvas size divided by the cell size, [draw] issues
    the clear first and then only dots of radius 1 with an opacity above
    0, each centred in a grid cell and lying entirely within the canvas. *)
Theorem draw_dots_inside (width height rows cols : Z) (grid grid' : Grid)
        (ops : list CanvasOp) :
  0 <= width -> 0 <= height ->
  rows = height / cellSize -> cols = width / cellSize ->
  wf rows cols grid ->
  draw rows cols grid = Ok (grid', ops) ->
  exists dots,
    ops = Clear :: dots /\
    forall op, In op dots ->
      exists x y o,
        op = Dot x y 1 o /\ (0 <? o)%float = true /\
        (exists i j, 0 <= i < rows /\ 0 <= j < cols /\
                     x = j * cellSize + cellSize / 2 /\
                     y = i * cellSize + cellSize / 2) /\
        0 <= x - 1 /\ x + 1 <= width /\ 0 <= y - 1 /\ y + 1 <= height.
Proof.
  intros Hw Hh Hrows Hcols Hwf Hdraw.
  rewrite draw_spec in Hdraw by assumption. injection Hdraw as <- <-.
  eexists. split; [reflexivity|].
  intros op Hop. apply in_map_iff in Hop as ([[i j] o] & <- & Hin).
  apply list_elem_of_In, elem_renderSnapshot in Hin as (cell' & Hc & -> & Hv).
  apply cellAt_faded in Hc as (cell & Hc & ->).
  destruct (cellAt_in_range _ _ _ _ _ _ Hwf Hc) as [Hi Hj].
  exists (j * cellSize + cellSize / 2), (i * cellSize + cellSize / 2),
         (opacity (faded cell)).
  split; [reflexivity|]. split; [exact Hv|].
  split; [exists i, j; auto|].
  pose proof (Z.mul_div_le width cellSize ltac:(reflexivity)) as Hcw.
  pose proof (Z.mul_div_le height cellSize ltac:(reflexivity)) as Hch.
  rewrite <- Hcols in Hcw. rewrite <- Hrows in Hch.
  change (cellSize / 2) with 3. unfold cellSize in *. lia.
Qed.

Lemma draw_dots_inside_witness :
  exists dots,
    [Clear; Dot 9 15 1 0.5; Dot 15 15 1 0.5; Dot 21 15 1 0.5] = Clear :: dots /\
    forall op, In op dots ->
      exists x y o,
        op = Dot x y 1 o /\ (0 <? o)%float = true /\
        (exists i j, 0 <= i < 5 /\ 0 <= j < 5 /\
                     x = j * cellSize + cellSize / 2 /\
                     y = i * cellSize + cellSize / 2) /\
        0 <= x - 1 /\ x + 1 <= 30 /\ 0 <= y - 1 /\ y + 1 <= 30.
Proof.
  apply (draw_dots_inside 30 30 5 5 blinker5
           (nextGrid 5 5 (List.map (List.map faded) blinker5)));
    [lia | lia | reflexivity | reflexivity | exact wf_blinker5 |].
  vm_compute. reflexivity.
Defined.


(** ** The initial grid, cell by cell *)

Lemma fill_map_regular {A} (e : nat -> result (A * nat)) (h : nat -> A)
      (step n k : nat) :
  (forall k, e k = Ok (h k, (k + step)%nat)) ->
  Js.fill_map n e k =
  Ok (List.map (fun i => h (k + step * i)%nat) (seq 0 n), (k + step * n)%nat).
Proof.
  intros He. revert k. induction n as [|n IH]; intros k.
  - cbn. do 2 f_equal. lia.
  - cbn [Js.fill_map]. rewrite He. cbn [mbind result_bind]. rewrite IH.
    cbn [mbind result_bind]. cbn [seq List.map]. f_equal. f_equal.
    + f_equal; [f_equal; lia|].
      rewrite <- seq_shift, List.map_map. apply List.map_ext.
      intros i. f_equal. lia.
    + lia.
Qed.

Lemma initRow_cells (random : nat -> float) (cols : Z) (k : nat) :
  0 <= cols < 2 ^ 32 ->
  initRow random cols k =
  Ok (List.map (fun j => cellFromDraws random (k + 2 * j)%nat)
               (seq 0 (Z.to_nat cols)),
      (k + 2 * Z.to_nat cols)%nat).
Proof.
  intros Hcols. unfold initRow. rewrite Array_ok by assumption.
  apply (fill_map_regular (initCell random) (cellFromDraws random) 2).
  intros k0. unfold initCell, cellFromDraws. do 2 f_equal. lia.
Qed.

Lemma initGrid_layout (random : nat -> float) (rows cols : Z) :
  0 <= rows < 2 ^ 32 -> 0 <= cols < 2 ^ 32 ->
  exists grid,
    initGrid random rows cols 0 = Ok (grid, Z.to_nat (2 * rows * cols)) /\
    wf rows cols grid /\
    forall i j, 0 <= i < rows -> 0 <= j < cols ->
      cellAt grid (Js.Int i) (Js.Int j) =
      Ok (mkCell (0.85 <? random (Z.to_nat (2 * (i * cols + j))))%float
                 (if (0.85 <? random (Z.to_nat (2 * (i * cols + j) + 1)))%float
                  then 0.5%float else 0%float)).
Proof.
  intros Hrows Hcols. unfold initGrid. rewrite Array_ok by assumption.
  rewrite (fill_map_regular (initRow random cols)
             (fun k => List.map (fun j => cellFromDraws random (k + 2 * j)%nat)
                                (seq 0 (Z.to_nat cols)))
             (2 * Z.to_nat cols)).
  2:{ intros k. apply initRow_cells. assumption. }
  eexists. split; [f_equal; f_equal; nia|]. split.
  - split.
    + rewrite length_map, length_seq. lia.
    + apply Forall_forall. intros r Hr.
      apply list_elem_of_In, in_map_iff in Hr as (i & <- & _).
      rewrite length_map, length_seq. lia.
  - intros i j Hi Hj. apply cellAt_Ok.
    eexists. split; (split; [lia|]).
    + change (List.map ?f ?l) with (f <$> l).
      rewrite list_lookup_fmap, lookup_seq_lt by lia. reflexivity.
    + cbn beta. change (List.map ?f ?l) with (f <$> l).
      rewrite list_lookup_fmap, lookup_seq_lt by lia. cbn.
      unfold cellFromDraws. do 2 f_equal.
      * f_equal. f_equal. nia.
      * match goal with
        | |- context [random (S ?a)] =>
            replace (S a) with (Z.to_nat (2 * (i * cols + j) + 1)) by nia
        end.
        reflexivity.
Qed.

(** X8. The initial grid cell by cell: for dimensions in [0, 2^32) the
    initialiser consumes exactly [2 * rows * cols] draws of [Math.random],
    and the cell at [(i, j)] takes its alive flag from draw number
    [2 * (i * cols + j)] and its opacity, 0.5 or 0, from the next draw:
    both are decided by the threshold 0.85, but on different draws. *)
Theorem initGrid_cells (random : nat -> float) (rows cols : Z) :
  0 <= rows < 2 ^ 32 -> 0 <= cols < 2 ^ 32 ->
  exists grid,
    initGrid random rows cols 0 = Ok (grid, Z.to_nat (2 * rows * cols)) /\
    wf rows cols grid /\
    forall i j, 0 <= i < rows -> 0 <= j < cols ->
      cellAt grid (Js.Int i) (Js.Int j) =
      Ok (mkCell (0.85 <? random (Z.to_nat (2 * (i * cols + j))))%float
                 (if (0.85 <? random (Z.to_nat (2 * (i * cols + j) + 1)))%float
                  then 0.5%float else 0%float)).
Proof. exact (initGrid_layout random rows cols). Qed.

Lemma initGrid_cells_witness :
  exists grid,
    initGrid alternating 100 250 0 = Ok (grid, Z.to_nat (2 * 100 * 250)) /\
    wf 100 250 grid /\
    forall i j, 0 <= i < 100 -> 0 <= j < 250 ->
      cellAt grid (Js.Int i) (Js.Int j) =
      Ok (mkCell (0.85 <? alternating (Z.to_nat (2 * (i * 250 + j))))%float
                 (if (0.85 <? alternating (Z.to_nat (2 * (i * 250 + j) + 1)))%float
                  then 0.5%float else 0%float)).
Proof. apply (initGrid_cells alternating 100 250); lia. Defined.

(** X9. The initialiser at the edges of its domain: with zero rows it
    returns the empty grid without a draw and without looking at the
    number of columns; with zero columns it returns [rows] empty rows
    without a draw; a negative number of rows, or of columns when there is
    at least one row, is a RangeError. *)
Theorem initGrid_edges (random : nat -> float) (rows cols : Z) (k : nat) :
  (rows = 0 -> initGrid random rows cols k = Ok ([], k)) /\
  (0 <= rows < 2 ^ 32 -> cols = 0 ->
   initGrid random rows cols k = Ok (List.repeat [] (Z.to_nat rows), k)) /\
  (rows < 0 -> initGrid random rows cols k = Throw RangeError) /\
  (0 < rows < 2 ^ 32 -> cols < 0 ->
   initGrid random rows cols k = Throw RangeError).
Proof.
  repeat split.
  - intros ->. reflexivity.
  - intros Hrows ->. unfold initGrid. rewrite Array_ok by assumption.
    rewrite (fill_map_regular (initRow random 0) (fun _ => []) 0).
    + f_equal. f_equal; [|lia].
      generalize (Z.to_nat rows) as n. intros n. generalize 0%nat as a.
      induction n as [|n IH]; intros a; cbn; [reflexivity|].
      f_equal. apply IH.
    + intros k0. rewrite Nat.add_0_r. reflexivity.
  - intros Hrows. unfold initGrid, Js.Array.
    destruct (Z.leb_spec 0 rows); [lia | reflexivity].
  - intros Hrows Hcols. unfold initGrid. rewrite Array_ok by lia.
    destruct (Z.to_nat rows) as [|n] eqn:Hn; [lia|].
    cbn [Js.fill_map].
    assert (Hr : initRow random cols k = Throw RangeError).
    { unfold initRow, Js.Array.
      destruct (Z.leb_spec 0 cols); [lia | reflexivity]. }
    rewrite Hr. reflexivity.
Qed.

Lemma initGrid_edges_witness :
  initGrid alternating 0 (-1) 0 = Ok ([], 0%nat) /\
  initGrid alternating 2 0 0 = Ok ([[]; []], 0%nat) /\
  initGrid alternating (-1) 3 0 = Throw RangeError /\
  initGrid alternating 2 (-1) 0 = Throw RangeError.
Proof.
  pose proof (initGrid_edges alternating 0 (-1) 0) as (H1 & _).
  pose proof (initGrid_edges alternating 2 0 0) as (_ & H2 & _).
  pose proof (initGrid_edges alternating (-1) 3 0) as (_ & _ & H3 & _).
  pose proof (initGrid_edges alternating 2 (-1) 0) as (_ & _ & _ & H4).
  split; [apply H1; reflexivity|].
  split; [apply H2; [lia | reflexivity]|].
  split; [apply H3; lia | apply H4; lia].
Defined.

(** ** Invariants of the running effect *)

Lemma fade_levels (a : bool) (o : float) :
  In o levels -> In (fade (mkCell a o)) levels.
Proof.
  unfold levels. cbn [In].
  intros [<- | [<- | [<- | [<- | [<- | [<- | []]]]]]]; destruct a;
    vm_compute; auto 10.
Qed.

Lemma levels_range (o : float) :
  In o levels -> (0 <=? o)%float = true /\ (o <=? 0.5)%float = true.
Proof.
  unfold levels. cbn [In].
  intros [<- | [<- | [<- | [<- | [<- | [<- | []]]]]]];
    split; vm_compute; reflexivity.
Qed.

Lemma cellAt_nextGrid_inv (rows cols : Z) (grid : Grid) (i j : Z) (cell' : Cell) :
  wf rows cols grid ->
  cellAt (nextGrid rows cols grid) (Js.Int i) (Js.Int j) = Ok cell' ->
  exists cell, cellAt grid (Js.Int i) (Js.Int j) = Ok cell /\
               cell' = nextCell rows cols grid i j cell.
Proof.
  intros Hwf H'.
  destruct (cellAt_in_range _ _ _ _ _ _ (wf_nextGrid _ _ _ Hwf) H') as [Hi Hj].
  destruct (cellAt_wf _ _ _ _ _ Hwf Hi Hj) as [cell Hc].
  exists cell. split; [exact Hc|].
  rewrite (cellAt_nextGrid rows cols _ _ _ _ Hc) in H'. congruence.
Qed.

Lemma callDraw_invariant (rt : Runtime) :
  wf (rows rt) (cols rt) (grid rt) ->
  (forall i j cell,
     cellAt (grid rt) (Js.Int i) (Js.Int j) = Ok cell ->
     In (opacity cell) levels) ->
  exists rt',
    callDraw rt = Ok rt' /\
    rows rt' = rows rt /\ cols rt' = cols rt /\
    wf (rows rt') (cols rt') (grid rt') /\
    (forall i j cell,
       cellAt (grid rt') (Js.Int i) (Js.Int j) = Ok cell ->
       In (opacity cell) levels) /\
    animationFrameId rt' = animationFrameId rt /\
    timeouts rt' = S (timeouts rt) /\ frames rt' = frames rt /\
    nextHandle rt' = nextHandle rt /\
    length (painted rt') = S (length (painted rt)).
Proof.
  intros Hwf Hop. rewrite callDraw_wf by assumption.
  eexists. split; [reflexivity|].
  cbn [rows cols grid animationFrameId timeouts frames nextHandle painted].
  split; [reflexivity|]. split; [reflexivity|].
  split; [apply wf_nextGrid, wf_faded; exact Hwf|].
  split; [|repeat split; try reflexivity; rewrite length_app; cbn; lia].
  - intros i j cell' H'.
    apply (cellAt_nextGrid_inv (rows rt) (cols rt)) in H'
      as (cell1 & H1 & ->); [|apply wf_faded; exact Hwf].
    apply cellAt_faded in H1 as (cell & Hc & ->).
    unfold nextCell, faded. cbn [opacity].
    destruct cell as [a o]. apply fade_levels. exact (Hop _ _ _ Hc).
Qed.

Lemma filter_length_bound (f : nat -> bool) (l : list nat) :
  (length (List.filter f l) <= length l)%nat.
Proof.
  induction l as [|x l IH]; cbn; [lia|]. destruct (f x); cbn; lia.
Qed.

Ltac simpl_rt :=
  cbn [rows cols grid animationFrameId timeouts frames nextHandle painted]
    in *.

Lemma fire_invariant (e : Event) (rt rt' : Runtime) :
  invariant rt -> fire e rt = Some rt' ->
  invariant rt' /\ rows rt' = rows rt /\ cols rt' = cols rt.
Proof.
  unfold invariant.
  intros (Hwf & Hop & Hpend & Hid) H. destruct e as [| handle |]; cbn [fire] in H.
  - destruct (timeouts rt) as [|pending] eqn:Ht; [discriminate|].
    injection H as <-. simpl_rt.
    assert (Hf : frames rt = []).
    { destruct (frames rt); [reflexivity | cbn in Hpend; lia]. }
    rewrite Hf. cbn [app length].
    split; [|split; reflexivity].
    split; [exact Hwf|]. split; [exact Hop|]. split; [lia|].
    intros h [<- | []]. reflexivity.
  - destruct (bool_decide (handle ∈ frames rt)) eqn:Hin; [|discriminate].
    apply bool_decide_eq_true_1, list_elem_of_In in Hin.
    destruct (frames rt) as [|h0 [|h1 fs]] eqn:Hf;
      [destruct Hin | | cbn in Hpend; lia].
    destruct Hin as [-> | []].
    cbn [List.filter] in H. rewrite Nat.eqb_refl in H. cbn [negb] in H.
    match type of H with
    | match callDraw ?r with _ => _ end = _ =>
        destruct (callDraw_invariant r Hwf Hop)
          as (r' & Hr & Hrows & Hcols & Hwf' & Hop' & Ha & Ht & Hfr & _)
    end.
    rewrite Hr in H. injection H as <-. simpl_rt.
    split; [|split; assumption].
    split; [exact Hwf'|]. split; [exact Hop'|].
    rewrite Ht, Hfr. cbn [length] in *. split; [lia|]. intros h [].
  - injection H as <-. simpl_rt.
    split; [|split; reflexivity].
    split; [exact Hwf|]. split; [exact Hop|]. split.
    + destruct (animationFrameId rt) as [n|]; [|exact Hpend].
      pose proof (filter_length_bound (fun h => negb (Nat.eqb h n)) (frames rt)).
      lia.
    + intros h Hh. apply Hid.
      destruct (animationFrameId rt); [|exact Hh].
      apply filter_In in Hh. tauto.
Qed.

Lemma run_invariant (events : list Event) (rt rt' : Runtime) :
  invariant rt -> run events rt = Some rt' ->
  invariant rt' /\ rows rt' = rows rt /\ cols rt' = cols rt.
Proof.
  revert rt. induction events as [|e events IH]; intros rt Hinv H.
  - injection H as <-. auto.
  - cbn [run] in H. destruct (fire e rt) as [rt1|] eqn:He; [|discriminate].
    destruct (fire_invariant e rt rt1 Hinv He) as (Hinv1 & Hr1 & Hc1).
    destruct (IH rt1 Hinv1 H) as (Hinv' & Hr' & Hc').
    split; [exact Hinv'|]. split; congruence.
Qed.

Lemma mount_invariant (random : nat -> float) (width height : Z) (rt : Runtime) :
  0 <= width < 2 ^ 32 -> 0 <= height < 2 ^ 32 ->
  mount random width height = Ok rt ->
  invariant rt /\ rows rt = height / cellSize /\ cols rt = width / cellSize /\
  timeouts rt = 1%nat /\ frames rt = [] /\ nextHandle rt = 1%nat /\
  length (painted rt) = 1%nat.
Proof.
  intros Hw Hh H. unfold mount in H.
  destruct (initGrid_layout random (height / cellSize) (width / cellSize)
              (dimension_range _ Hh) (dimension_range _ Hw))
    as (g & Hg & Hwf & Hcells).
  rewrite Hg in H. cbn [mbind result_bind] in H.
  match type of H with
  | callDraw ?r = _ =>
      destruct (callDraw_invariant r) as
        (r' & Hr & Hrows & Hcols & Hwf' & Hop' & Ha & Ht & Hfr & Hn & Hp)
  end.
  { exact Hwf. }
  { simpl_rt. intros i j cell Hc.
    destruct (cellAt_in_range _ _ _ _ _ _ Hwf Hc) as [Hi Hj].
    rewrite (Hcells i j Hi Hj) in Hc. injection Hc as <-. cbn [opacity].
    unfold levels. destruct (_ <? _)%float; cbn [In]; auto 10. }
  rewrite Hr in H. injection H as <-. simpl_rt. unfold invariant.
  rewrite Ht, Hfr. cbn [length].
  split; [|repeat split; assumption].
  split; [exact Hwf'|]. split; [exact Hop'|]. split; [lia|]. intros h [].
Qed.

(** X10. While the effect runs, whatever the order of timeouts, frames
    and cleanups: the grid keeps the dimensions computed at mount, at most
    one callback (timeout or frame) is pending, a pending frame is the one
    recorded in [animationFrameId], and a pending frame runs [draw]
    without an exception. *)
Theorem loop_invariant (random : nat -> float) (width height : Z)
        (rt0 rt : Runtime) (events : list Event) :
  0 <= width < 2 ^ 32 -> 0 <= height < 2 ^ 32 ->
  mount random width height = Ok rt0 -> run events rt0 = Some rt ->
  rows rt = height / cellSize /\ cols rt = width / cellSize /\
  wf (rows rt) (cols rt) (grid rt) /\
  (timeouts rt + length (frames rt) <= 1)%nat /\
  forall h, In h (frames rt) ->
    animationFrameId rt = Some h /\
    exists rt', fire (FrameFires h) rt = Some rt' /\
                length (painted rt') = S (length (painted rt)).
Proof.
  intros Hw Hh Hm Hrun.
  destruct (mount_invariant _ _ _ _ Hw Hh Hm) as (Hinv0 & Hr0 & Hc0 & _).
  destruct (run_invariant _ _ _ Hinv0 Hrun) as ((Hwf & Hop & Hpend & Hid) & Hr & Hc).
  split; [congruence|]. split; [congruence|]. split; [exact Hwf|].
  split; [exact Hpend|].
  intros h Hin. split; [apply Hid; exact Hin|].
  cbn [fire].
  rewrite bool_decide_eq_true_2 by (apply list_elem_of_In; exact Hin).
  match goal with
  | |- context [callDraw ?r] =>
      destruct (callDraw_invariant r Hwf Hop)
        as (r' & Hr' & _ & _ & _ & _ & _ & _ & _ & _ & Hp)
  end.
  rewrite Hr'. exists r'. split; [reflexivity | exact Hp].
Qed.

Lemma loop_invariant_witness :
  exists rt0 rt,
    mount blinkerDraws 30 30 = Ok rt0 /\
    run [Cleanup; TimeoutFires] rt0 = Some rt /\
    rows rt = 30 / cellSize /\ cols rt = 30 / cellSize /\
    wf (rows rt) (cols rt) (grid rt) /\
    (timeouts rt + length (frames rt) <= 1)%nat /\
    forall h, In h (frames rt) ->
      animationFrameId rt = Some h /\
      exists rt', fire (FrameFires h) rt = Some rt' /\
                  length (painted rt') = S (length (painted rt)).
Proof.
  eexists. eexists.
  split; [vm_compute; reflexivity|].
  split; [vm_compute; reflexivity|].
  eapply (loop_invariant blinkerDraws 30 30 _ _ [Cleanup; TimeoutFires]);
    [lia | lia | vm_compute; reflexivity | vm_compute; reflexivity].
Defined.

(** X11. While the effect runs, every cell's opacity is one of six
    values, all between 0 and 0.5: the fade never overshoots the cap,
    never goes negative and never produces NaN, whatever the life rule
    does to the cell in the meantime. *)
Theorem opacity_invariant (random : nat -> float) (width height : Z)
        (rt0 rt : Runtime) (events : list Event) :
  0 <= width < 2 ^ 32 -> 0 <= height < 2 ^ 32 ->
  mount random width height = Ok rt0 -> run events rt0 = Some rt ->
  forall i j cell,
    cellAt (grid rt) (Js.Int i) (Js.Int j) = Ok cell ->
    In (opacity cell) levels /\
    (0 <=? opacity cell)%float = true /\ (opacity cell <=? 0.5)%float = true.
Proof.
  intros Hw Hh Hm Hrun i j cell Hc.
  destruct (mount_invariant _ _ _ _ Hw Hh Hm) as (Hinv0 & _).
  destruct (run_invariant _ _ _ Hinv0 Hrun) as ((_ & Hop & _) & _).
  pose proof (Hop i j cell Hc) as Hl. split; [exact Hl|].
  apply levels_range. exact Hl.
Qed.

Lemma opacity_invariant_witness :
  In (opacity (mkCell false 0.2%float)) levels /\
  (0 <=? opacity (mkCell false 0.2%float))%float = true /\
  (opacity (mkCell false 0.2%float) <=? 0.5)%float = true.
Proof.
  refine (opacity_invariant alternating 6 6 mounted1 mounted1 [Cleanup]
            _ _ _ _ 0 0 (mkCell false 0.2%float) _);
    [lia | lia | | | ]; vm_compute; reflexivity.
Defined.

Lemma round_runs (rt : Runtime) :
  invariant rt -> timeouts rt = 1%nat -> frames rt = [] ->
  exists rt',
    run [TimeoutFires; FrameFires (nextHandle rt)] rt = Some rt' /\
    invariant rt' /\ timeouts rt' = 1%nat /\ frames rt' = [] /\
    nextHandle rt' = S (nextHandle rt) /\
    length (painted rt') = S (length (painted rt)).
Proof.
  intros Hinv Ht Hf. cbn [run fire]. rewrite Ht, Hf. simpl_rt. cbn [app].
  rewrite bool_decide_eq_true_2 by (apply list_elem_of_singleton; reflexivity).
  cbn [List.filter]. rewrite Nat.eqb_refl. cbn [negb].
  destruct Hinv as (Hwf & Hop & _ & _).
  match goal with
  | |- context [callDraw ?r] =>
      destruct (callDraw_invariant r Hwf Hop)
        as (r' & Hr' & Hrows & Hcols & Hwf' & Hop' & Ha & Ht' & Hfr & Hn & Hp)
  end.
  rewrite Hr'. exists r'. simpl_rt.
  split; [reflexivity|]. split.
  - unfold invariant. rewrite Ht', Hfr. cbn [length].
    split; [exact Hwf'|]. split; [exact Hop'|]. split; [lia|]. intros h [].
  - auto.
Qed.

Lemma rounds_run (n : nat) (rt : Runtime) :
  invariant rt -> timeouts rt = 1%nat -> frames rt = [] ->
  exists rt',
    run (rounds (nextHandle rt) n) rt = Some rt' /\
    timeouts rt' = 1%nat /\ frames rt' = [] /\
    length (painted rt') = (length (painted rt) + n)%nat.
Proof.
  revert rt. induction n as [|n IH]; intros rt Hinv Ht Hf.
  - exists rt. cbn. auto.
  - destruct (round_runs rt Hinv Ht Hf)
      as (rt1 & Hrun1 & Hinv1 & Ht1 & Hf1 & Hn1 & Hp1).
    destruct (IH rt1 Hinv1 Ht1 Hf1) as (rt' & Hrun & Ht' & Hf' & Hp').
    exists rt'. split; [|split; [exact Ht' | split; [exact Hf' | lia]]].
    cbn [rounds]. cbn [run fire] in Hrun1 |- *.
    destruct (match timeouts rt with O => None | S p => _ end) as [rtA|];
      [|discriminate].
    destruct (fire (FrameFires (nextHandle rt)) rtA) as [rtB|] eqn:HB;
      cbn [fire] in HB; rewrite HB in Hrun1 |- *; [|discriminate].
    injection Hrun1 as ->. rewrite <- Hn1. exact Hrun.
Qed.

(** X12. Left alone, the animation never stops: after mounting, every
    round of "the timeout expires, the frame it requested runs" can
    happen, paints exactly one more frame and leaves exactly one timeout
    pending again, for any number of rounds. *)
Theorem loop_keeps_running (random : nat -> float) (width height : Z)
        (rt0 : Runtime) (n : nat) :
  0 <= width < 2 ^ 32 -> 0 <= height < 2 ^ 32 ->
  mount random width height = Ok rt0 ->
  exists rt,
    run (rounds 1 n) rt0 = Some rt /\
    length (painted rt) = (1 + n)%nat /\
    timeouts rt = 1%nat /\ frames rt = [].
Proof.
  intros Hw Hh Hm.
  destruct (mount_invariant _ _ _ _ Hw Hh Hm)
    as (Hinv0 & _ & _ & Ht0 & Hf0 & Hn0 & Hp0).
  destruct (rounds_run n rt0 Hinv0 Ht0 Hf0) as (rt & Hrun & Ht & Hf & Hp).
  exists rt. rewrite Hn0 in Hrun. rewrite Hp0 in Hp. auto.
Qed.

Lemma loop_keeps_running_witness :
  exists rt,
    run (rounds 1 3)
        mounted1 = Some rt /\
    length (painted rt) = (1 + 3)%nat /\
    timeouts rt = 1%nat /\ frames rt = [].
Proof.
  apply (loop_keeps_running alternating 6 6); [lia | lia |].
  vm_compute. reflexivity.
Defined.

Lemma stopped_stays (events : list Event) (rt rt' : Runtime) :
  timeouts rt = 0%nat -> frames rt = [] -> run events rt = Some rt' ->
  grid rt' = grid rt /\ painted rt' = painted rt /\
  timeouts rt' = 0%nat /\ frames rt' = [].
Proof.
  revert rt. induction events as [|e events IH]; intros rt Ht Hf H.
  - injection H as <-. auto.
  - cbn [run] in H. destruct e as [| h |]; cbn [fire] in H.
    + rewrite Ht in H. discriminate.
    + rewrite Hf in H.
      rewrite bool_decide_eq_false_2 in H by apply not_elem_of_nil.
      discriminate.
    + match type of H with
      | run events ?r = _ => destruct (IH r) as (Hg & Hp & Ht' & Hf')
      end; simpl_rt; auto.
      rewrite Hf. destruct (animationFrameId rt); reflexivity.
Qed.

(** X13. Where the cleanup does work: invoked while a requested frame is
    pending (after the timeout, before the frame), it cancels that frame
    and the animation is stopped for good: whatever is attempted
    afterwards, nothing fires but further cleanups, and the grid and the
    canvas stay as they were. *)
Theorem cleanup_stops_pending_frame (rt rt' rt'' : Runtime) (handle : nat)
        (events : list Event) :
  timeouts rt = 0%nat -> frames rt = [handle] ->
  animationFrameId rt = Some handle ->
  fire Cleanup rt = Some rt' -> run events rt' = Some rt'' ->
  grid rt'' = grid rt /\ painted rt'' = painted rt /\
  timeouts rt'' = 0%nat /\ frames rt'' = [] /\
  Forall (fun e => e = Cleanup) events.
Proof.
  intros Ht Hf Ha Hc Hrun. cbn [fire] in Hc. injection Hc as <-.
  rewrite Ha, Hf in Hrun. cbn [List.filter] in Hrun.
  rewrite Nat.eqb_refl in Hrun. cbn [negb] in Hrun.
  match type of Hrun with
  | run events ?r = _ =>
      destruct (stopped_stays events r rt'') as (Hg & Hp & Ht' & Hf');
        [exact Ht | reflexivity | exact Hrun |]
  end.
  simpl_rt. repeat split; try assumption.
  clear Hg Hp Ht' Hf'. revert Hrun.
  match goal with
  | |- run events ?r = _ -> _ => generalize r (eq_refl : timeouts r = timeouts rt)
                                            (eq_refl : frames r = [])
  end.
  intros r Htr Hfr. rewrite Ht in Htr. revert r Htr Hfr.
  induction events as [|e events IH]; intros r Htr Hfr Hrun; [constructor|].
  cbn [run] in Hrun. destruct e as [| h |]; cbn [fire] in Hrun.
  - rewrite Htr in Hrun. discriminate.
  - rewrite Hfr in Hrun.
    rewrite bool_decide_eq_false_2 in Hrun by apply not_elem_of_nil.
    discriminate.
  - constructor; [reflexivity|].
    eapply IH; [| | exact Hrun]; simpl_rt; [exact Htr|].
    rewrite Hfr. destruct (animationFrameId r); reflexivity.
Qed.

Lemma cleanup_stops_pending_frame_witness :
  exists rt rt' rt'',
    run [TimeoutFires]
        mounted1 = Some rt /\
    fire Cleanup rt = Some rt' /\ run [Cleanup; Cleanup] rt' = Some rt'' /\
    grid rt'' = grid rt /\ painted rt'' = painted rt /\
    timeouts rt'' = 0%nat /\ frames rt'' = [] /\
    Forall (fun e => e = Cleanup) [Cleanup; Cleanup].
Proof.
  eexists. eexists. eexists.
  split; [reflexivity|]. split; [reflexivity|]. split; [reflexivity|].
  eapply (cleanup_stops_pending_frame _ _ _ 1%nat [Cleanup; Cleanup]);
    reflexivity.
Defined.

(** ** The [useScroll] hook *)

Lemma scrollFire_mounted (e : ScrollEvent) (st st' : ScrollState) :
  mounted st = true ->
  listeners st = [(onScroll st, threshold st)] ->
  scrolled st = (threshold st <? scrollY st)%float ->
  scrollFire e st = Some st' -> e <> Unmount ->
  mounted st' = true /\
  listeners st' = [(onScroll st', threshold st')] /\
  scrolled st' = (threshold st' <? scrollY st')%float /\
  scrollY st' = lastScroll (scrollY st) [e] /\
  threshold st' = lastThreshold (threshold st) [e].
Proof.
  intros Hm Hl Hs H He. destruct e as [y | t |]; cbn [scrollFire] in H.
  - rewrite Hl in H. cbn in H. injection H as <-. cbn. auto.
  - rewrite Hm in H.
    destruct (PrimFloat.Leibniz.eqb (threshold st) t) eqn:Ht.
    + injection H as <-. apply FloatAxioms.Leibniz.eqb_spec in Ht.
      cbn. auto.
    + injection H as <-. rewrite Hl. unfold removeListener.
      cbn. rewrite Nat.eqb_refl. cbn. auto.
  - contradiction.
Qed.

Lemma scrollRun_mounted (events : list ScrollEvent) (st0 st : ScrollState) :
  Forall (fun e => e <> Unmount) events ->
  mounted st0 = true ->
  listeners st0 = [(onScroll st0, threshold st0)] ->
  scrolled st0 = (threshold st0 <? scrollY st0)%float ->
  scrollRun events st0 = Some st ->
  mounted st = true /\
  listeners st = [(onScroll st, threshold st)] /\
  scrolled st = (threshold st <? scrollY st)%float /\
  scrollY st = lastScroll (scrollY st0) events /\
  threshold st = lastThreshold (threshold st0) events.
Proof.
  intros Hev. revert st0.
  induction Hev as [|e events He Hev IH]; intros st0 Hm Hl Hs Hrun.
  - injection Hrun as <-. auto.
  - cbn [scrollRun] in Hrun.
    destruct (scrollFire e st0) as [st1|] eqn:H1; [|discriminate].
    destruct (scrollFire_mounted e st0 st1 Hm Hl Hs H1 He)
      as (Hm1 & Hl1 & Hs1 & Hy1 & Ht1).
    destruct (IH st1 Hm1 Hl1 Hs1 Hrun) as (Hm' & Hl' & Hs' & Hy' & Ht').
    repeat split; try assumption.
    + rewrite Hy', Hy1. reflexivity.
    + rewrite Ht', Ht1. reflexivity.
Qed.

(** X14. While mounted, the hook is in step with the window: after any
    history of scroll events and re-renders, exactly one scroll listener
    is registered, the current callback, and [scrolled] is true exactly
    when the last scroll position is above the last rendered threshold
    (strictly: at the threshold it is false). *)
Theorem useScroll_in_step (t y : float) (events : list ScrollEvent)
        (st : ScrollState) :
  Forall (fun e => e <> Unmount) events ->
  scrollRun events (useScrollMount t y) = Some st ->
  mounted st = true /\
  listeners st = [(onScroll st, threshold st)] /\
  scrolled st = (lastThreshold t events <? lastScroll y events)%float.
Proof.
  intros Hev Hrun.
  destruct (scrollRun_mounted events (useScrollMount t y) st Hev)
    as (Hm & Hl & Hs & Hy & Ht); try reflexivity; try assumption.
  repeat split; try assumption.
  rewrite Hs, Hy, Ht. reflexivity.
Qed.

Lemma useScroll_in_step_witness :
  exists st,
    scrollRun [Scrolls 15; Scrolls 16; Rerender 20; Scrolls 20.5]
              (useScrollMount 15 0) = Some st /\
    mounted st = true /\
    listeners st = [(onScroll st, threshold st)] /\
    scrolled st = (lastThreshold 15 [Scrolls 15; Scrolls 16; Rerender 20; Scrolls 20.5]
                   <? lastScroll 0 [Scrolls 15; Scrolls 16; Rerender 20; Scrolls 20.5])%float.
Proof.
  eexists. split; [vm_compute; reflexivity|].
  apply (useScroll_in_step 15 0 [Scrolls 15; Scrolls 16; Rerender 20; Scrolls 20.5]).
  - repeat constructor; discriminate.
  - vm_compute. reflexivity.
Defined.

Lemma scrolls_unmounted (ys : list float) (st st' : ScrollState) :
  listeners st = [] ->
  scrollRun (List.map Scrolls ys) st = Some st' ->
  scrolled st' = scrolled st /\ listeners st' = [] /\
  mounted st' = mounted st.
Proof.
  revert st. induction ys as [|y ys IH]; intros st Hl H.
  - injection H as <-. auto.
  - cbn [List.map scrollRun scrollFire] in H. rewrite Hl in H.
    cbn [fold_left] in H.
    apply IH in H as (Hs & Hl' & Hm); [|reflexivity]. auto.
Qed.

(** X15. Unmounting releases the window: after any history the cleanup
    leaves no scroll listener of the hook registered, and scrolling
    afterwards no longer changes [scrolled]. *)
Theorem useScroll_unmount (t y : float) (events : list ScrollEvent)
        (ys : list float) (st st1 st2 : ScrollState) :
  Forall (fun e => e <> Unmount) events ->
  scrollRun events (useScrollMount t y) = Some st ->
  scrollFire Unmount st = Some st1 ->
  scrollRun (List.map Scrolls ys) st1 = Some st2 ->
  listeners st1 = [] /\ listeners st2 = [] /\
  scrolled st2 = scrolled st /\ mounted st2 = false.
Proof.
  intros Hev Hrun Hun Hys.
  destruct (scrollRun_mounted events (useScrollMount t y) st Hev)
    as (Hm & Hl & _); try reflexivity; try assumption.
  cbn [scrollFire] in Hun. rewrite Hm, Hl in Hun.
  unfold removeListener in Hun. cbn [List.filter fst] in Hun.
  rewrite Nat.eqb_refl in Hun. cbn [negb] in Hun. injection Hun as <-.
  apply scrolls_unmounted in Hys as (Hs & Hl2 & Hm2); [|reflexivity].
  cbn in Hs, Hm2. auto.
Qed.

Lemma useScroll_unmount_witness :
  exists st st1 st2,
    scrollRun [Scrolls 40] (useScrollMount 15 0) = Some st /\
    scrollFire Unmount st = Some st1 /\
    scrollRun (List.map Scrolls [0; 3]%float) st1 = Some st2 /\
    listeners st1 = [] /\ listeners st2 = [] /\
    scrolled st2 = scrolled st /\ mounted st2 = false.
Proof.
  eexists. eexists. eexists.
  split; [vm_compute; reflexivity|].
  split; [vm_compute; reflexivity|].
  split; [vm_compute; reflexivity|].
  eapply (useScroll_unmount 15 0 [Scrolls 40] [0; 3]%float).
  - repeat constructor; discriminate.
  - vm_compute. reflexivity.
  - vm_compute. reflexivity.
  - vm_compute. reflexivity.
Defined.
